(** * A shallow embedding of the pose-graph SLAM front end (src/src/slam/slam.cc)

    Floating-point quantities are idealised as real numbers; where the code
    can produce non-finite values (divisions by zero in the point-cloud
    projector) the embedding uses [xr], reals extended with the IEEE
    infinities and NaN, so that those paths are followed as the code runs
    them.  The signed zero of IEEE arithmetic is not modelled. *)

From Stdlib Require Import Reals Psatz List Bool ZArith Sorting.Sorted.
Import ListNotations.
Open Scope R_scope.

(** ** Extended reals: the values a [float] can hold *)

Inductive xr : Type :=
| Fin (r : R)
| PInf
| NInf
| NaN.

Definition xneg (a : xr) : xr :=
  match a with
  | Fin r => Fin (- r)
  | PInf => NInf
  | NInf => PInf
  | NaN => NaN
  end.

Definition xadd (a b : xr) : xr :=
  match a, b with
  | Fin r, Fin s => Fin (r + s)
  | Fin _, x | x, Fin _ => x
  | PInf, PInf => PInf
  | NInf, NInf => NInf
  | _, _ => NaN
  end.

Definition xsub (a b : xr) : xr := xadd a (xneg b).

(** sign of a real, as the sign of an infinite result *)
Definition xinf_of_sign (r : R) : xr :=
  if Rlt_dec 0 r then PInf else if Rlt_dec r 0 then NInf else NaN.

Definition xmul (a b : xr) : xr :=
  match a, b with
  | Fin r, Fin s => Fin (r * s)
  | Fin r, PInf | PInf, Fin r => xinf_of_sign r
  | Fin r, NInf | NInf, Fin r => xneg (xinf_of_sign r)
  | PInf, PInf | NInf, NInf => PInf
  | PInf, NInf | NInf, PInf => NInf
  | _, _ => NaN
  end.

Definition xdiv (a b : xr) : xr :=
  match a, b with
  | Fin r, Fin s => if Req_EM_T s 0 then xinf_of_sign r else Fin (r / s)
  | Fin _, (PInf | NInf) => Fin 0
  | PInf, Fin s => if Rlt_dec s 0 then NInf else PInf
  | NInf, Fin s => if Rlt_dec s 0 then PInf else NInf
  | _, _ => NaN
  end.

Definition xcos (a : xr) : xr :=
  match a with Fin r => Fin (cos r) | _ => NaN end.

Definition xsin (a : xr) : xr :=
  match a with Fin r => Fin (sin r) | _ => NaN end.

(** [floor] of <cmath> *)
Definition xfloor (a : xr) : xr :=
  match a with Fin r => Fin (IZR (Int_part r)) | x => x end.

(** Conversion of a floating value to [unsigned int]: truncation towards
    zero, defined only when the truncated value lies in [0, 2^32); any other
    value (negative, too large, infinite, NaN) is undefined behaviour,
    written [None]. *)
Definition to_unsigned (a : xr) : option nat :=
  match a with
  | Fin r =>
      if Rlt_dec (-1) r then
        if Rlt_dec r (IZR (2 ^ 32)) then
          Some (if Rle_dec 0 r then Z.to_nat (Int_part r) else 0%nat)
        else None
      else None
  | _ => None
  end.

(** Float comparisons on finite values, as booleans. *)
Definition Rleb (a b : R) : bool := if Rle_dec a b then true else false.
Definition Rltb (a b : R) : bool := if Rlt_dec a b then true else false.

(** ** Poses and frame transforms *)

(** [pose_2d::Pose2Df]: a heading and a translation. *)
Record Pose2Df : Type := mkPose {
  angle : R;
  translation : R * R
}.

(** [Eigen::Rotation2Df(theta) * v] *)
Definition rotate (theta : R) (v : R * R) : R * R :=
  (cos theta * fst v - sin theta * snd v, sin theta * fst v + cos theta * snd v).

Definition vadd (u v : R * R) : R * R := (fst u + fst v, snd u + snd v).
Definition vsub (u v : R * R) : R * R := (fst u - fst v, snd u - snd v).

(** [Eigen::Vector2f::norm] *)
Definition norm (v : R * R) : R := sqrt (fst v * fst v + snd v * snd v).

(** Modelled from the spec: [math_util::AngleMod] of the shared math
    library, which is not under src/.  The spec's data model wraps angles
    to (-pi, pi]; this shifts the angle by the multiple of 2*pi that lands
    it there. *)
Definition AngleMod (a : R) : R :=
  a + 2 * PI * IZR (Int_part ((PI - a) / (2 * PI))).

(** Modelled from the spec: [math_util::AngleDist], the circular distance
    between two headings (the shorter arc). *)
Definition AngleDist (a0 a1 : R) : R := Rabs (AngleMod (a0 - a1)).

(** [SLAM::transformPoseFromSrc2Map] *)
Definition transformPoseFromSrc2Map (pose_rel_src_frame src_frame_pose_rel_map_frame : Pose2Df)
  : Pose2Df :=
  let rotated_still_src_transl :=
    rotate (angle src_frame_pose_rel_map_frame) (translation pose_rel_src_frame) in
  let rotated_and_translated :=
    vadd (translation src_frame_pose_rel_map_frame) rotated_still_src_transl in
  let target_angle :=
    AngleMod (angle src_frame_pose_rel_map_frame + angle pose_rel_src_frame) in
  mkPose target_angle rotated_and_translated.

(** [SLAM::transformPoseFromMap2Target] *)
Definition transformPoseFromMap2Target (pose_rel_map_frame target_frame_pose_rel_map_frame : Pose2Df)
  : Pose2Df :=
  let trans := vsub (translation pose_rel_map_frame) (translation target_frame_pose_rel_map_frame) in
  let final_trans := rotate (- angle target_frame_pose_rel_map_frame) trans in
  let final_angle :=
    AngleMod (angle pose_rel_map_frame - angle target_frame_pose_rel_map_frame) in
  mkPose final_angle final_trans.

(** ** Point-cloud projector *)

(** A [Vector2f] of the point cloud. *)
Definition point : Type := (xr * xr)%type.

(** [kLaserLoc] *)
Definition kLaserLoc : R * R := (0.2, 0).

Section Lidar.
Variables (ranges : list R) (range_min range_max : R) (angle_increment : xr).

(** The [for (i = 0; i < N; ++i)] loop of [convertLidar2PointCloud],
    [k] iterations left, at index [i], with [current_angle] before the
    increment of the iteration.  Reading [ranges[i]] past the end of the
    vector is undefined behaviour, written [None]. *)
Fixpoint lidar_loop (k i : nat) (current_angle : xr) : option (list point) :=
  match k with
  | O => Some []
  | S k' =>
      let current_angle' := xadd current_angle angle_increment in
      match nth_error ranges i with
      | None => None
      | Some r =>
          if Rleb range_max r || Rleb r range_min then
            lidar_loop k' (S i) current_angle'
          else
            let p := (xadd (xmul (Fin r) (xcos current_angle')) (Fin (fst kLaserLoc)),
                      xadd (xmul (Fin r) (xsin current_angle')) (Fin (snd kLaserLoc))) in
            option_map (cons p) (lidar_loop k' (S i) current_angle')
      end
  end.
End Lidar.

(** [SLAM::convertLidar2PointCloud]: the new [recent_point_cloud_], or
    [None] where the code has undefined behaviour.  The readings are
    finite reals and the arithmetic is exact: a NaN reading (which passes
    the discard test and yields a NaN point) is not represented, and the
    float32 rounding of the loop bound [span / angle_increment] (which can
    fall just below [N - 1]) is not modelled, so the definition is the
    code's only at inputs where that float arithmetic is exact. *)
Definition convertLidar2PointCloud (ranges : list R) (range_min range_max angle_min angle_max : R)
  : option (list point) :=
  let angle_increment := xdiv (Fin (angle_max - angle_min)) (Fin (INR (length ranges) - 1)) in
  let current_angle := xsub (Fin angle_min) angle_increment in
  match to_unsigned (xfloor (xdiv (Fin (angle_max - angle_min)) angle_increment)) with
  | None => None
  | Some N => lidar_loop ranges range_min range_max angle_increment N 0 current_angle
  end.

(** ** Configuration ([config/slam.lua]) *)

Record Config : Type := mkConfig {
  min_angle_diff_between_nodes : R;
  min_trans_diff_between_nodes : R;
  new_node_x_std : R;
  new_node_y_std : R;
  new_node_theta_std : R;
  max_factors_per_node : R;
  maximum_node_dis_scan_comparison : R;
  non_successive_scan_constraints : bool;
  initial_node_global_x : R;
  initial_node_global_y : R;
  initial_node_global_theta : R;
  runOnline : bool;
  runOffline : bool;
  fix_mean : bool;
  fix_covariance : bool
}.

(** ** Pose graph *)

(** [PgNode]: constructed as [PgNode(pose, node_number, point_cloud)]. *)
Record PgNode : Type := mkPgNode {
  estimated_pose : Pose2Df;
  node_number : nat;
  point_cloud : list point
}.

(** [PgNode::setPose(loc, theta)] *)
Definition setPose (n : PgNode) (loc : R * R) (theta : R) : PgNode :=
  mkPgNode (mkPose theta loc) (node_number n) (point_cloud n).

(** [CSM]'s [Trans]: a translation and an angle. *)
Definition Trans : Type := ((R * R) * R)%type.

Section Slam.
(** [Eigen::Matrix3f], the covariance of a scan match. *)
Context {Cov : Type}.
(** the fixed diagonal covariance written when [fix_covariance] is set *)
Variable cov_identity : Cov.
Variable cfg : Config.

(** The scan matcher: [matcher.GetTransform(match_cloud, base_cloud, odom,
    transform)] returns [converged] and fills [transform]. *)
Variable GetTransform : list point -> list point -> Trans -> bool * (Trans * Cov).

(** gtsam factors *)
Inductive Factor : Type :=
| PriorFactor (key : nat) (mean : Pose2Df) (sigmas : R * R * R)
| BetweenFactor (from_key to_key : nat) (measured : Pose2Df) (noise : Cov).

(** [gtsam::Values]: a key for each initial estimate *)
Definition Values : Type := list (nat * Pose2Df).

(** [ISAM2]: the sequence of [update(graph, values)] calls it has received
    since construction, oldest first. *)
Definition ISAM2 : Type := list (list Factor * Values).

(** [isam_->calculateEstimate()] followed by [result.at<Pose2>(key)];
    [None] is the exception [at] throws for a missing key. *)
Variable calculateEstimate : ISAM2 -> nat -> option Pose2Df.

(** The members of [SLAM]. *)
Record SLAM : Type := mkSLAM {
  prev_odom_loc_ : R * R;
  prev_odom_angle_ : R;
  odom_initialized_ : bool;
  first_scan : bool;
  last_node_cumulative_dist_ : R;
  last_node_odom_pose_ : Pose2Df;
  pg_nodes_ : list PgNode;
  recent_point_cloud_ : list point;
  graph_ : list Factor;
  isam_ : ISAM2;
  stopSlamCmdRecv_ : bool
}.

(** The process: the [slam_] object of [slam_main.cc] and the function
    static [run_before] of [offlineOptimizePoseGraph]. *)
Record Process : Type := mkProcess {
  slam_ : SLAM;
  run_before : bool
}.

(** [SLAM::SLAM()].  [slam_] has static storage, so the members the
    constructor leaves alone ([last_node_odom_pose_], whose default
    constructor does nothing) are zero. *)
Definition SLAM_init : SLAM :=
  mkSLAM (0, 0) 0 false true 0 (mkPose 0 (0, 0)) [] [] [] [] false.

Definition Process_init : Process := mkProcess SLAM_init false.

Definition with_dist (s : SLAM) (d : R) : SLAM :=
  mkSLAM (prev_odom_loc_ s) (prev_odom_angle_ s) (odom_initialized_ s) (first_scan s)
    d (last_node_odom_pose_ s) (pg_nodes_ s) (recent_point_cloud_ s) (graph_ s) (isam_ s)
    (stopSlamCmdRecv_ s).

(** [SLAM::ObserveOdometry] *)
Definition ObserveOdometry (s : SLAM) (odom_loc : R * R) (odom_angle : R) : SLAM :=
  let odom_initialized := true in
  mkSLAM odom_loc odom_angle odom_initialized (first_scan s)
    (last_node_cumulative_dist_ s + norm (vsub odom_loc (prev_odom_loc_ s)))
    (last_node_odom_pose_ s) (pg_nodes_ s) (recent_point_cloud_ s) (graph_ s) (isam_ s)
    (stopSlamCmdRecv_ s).

(** [SLAM::shouldAddPgNode]: the answer and the new state. *)
Definition shouldAddPgNode (s : SLAM) : bool * SLAM :=
  let angle_diff := AngleDist (prev_odom_angle_ s) (angle (last_node_odom_pose_ s)) in
  if Rltb (min_trans_diff_between_nodes cfg) (last_node_cumulative_dist_ s)
     || Rltb (min_angle_diff_between_nodes cfg) angle_diff
  then (true, with_dist s 0)
  else (false, s).

(** [SLAM::ScanMatch(base_node, match_node, result)]: [None] when it
    returns [false], otherwise the [result] it writes. *)
Definition ScanMatch (base_node match_node : PgNode) : option (Pose2Df * Cov) :=
  let base_pose := estimated_pose base_node in
  let match_pose := estimated_pose match_node in
  let odom_match_rel_base := transformPoseFromMap2Target match_pose base_pose in
  let odom : Trans := (translation odom_match_rel_base, angle odom_match_rel_base) in
  let '(converged, transform) :=
    GetTransform (point_cloud match_node) (point_cloud base_node) odom in
  if negb converged then None
  else
    let result_first := mkPose (snd (fst transform)) (fst (fst transform)) in
    let result_second := snd transform in
    let result_first := if fix_mean cfg then odom_match_rel_base else result_first in
    let result_second := if fix_covariance cfg then cov_identity else result_second in
    Some (result_first, result_second).

(** [SLAM::addObservationConstraint] *)
Definition addObservationConstraint (graph : list Factor) (from_node_num to_node_num : nat)
    (constraint_info : Pose2Df * Cov) : list Factor :=
  graph ++ [BetweenFactor from_node_num to_node_num (fst constraint_info) (snd constraint_info)].

Section NonSuccessive.
Variables (pg_nodes : list PgNode) (preceding_node : PgNode).

(** The loop over [i] of [updatePoseGraphObsConstraints], over the
    indices [is] still to visit, with [num_added_factors] so far. *)
Fixpoint non_successive_loop (is : list nat) (num_added_factors : nat) (graph : list Factor)
  : option (list Factor) :=
  match is with
  | [] => Some graph
  | i :: is' =>
      if Rleb (max_factors_per_node cfg) (INR num_added_factors) then Some graph
      else
        match nth_error pg_nodes i with
        | None => None
        | Some node =>
            let node_dist :=
              norm (vsub (translation (estimated_pose node))
                         (translation (estimated_pose preceding_node))) in
            if Rleb node_dist (maximum_node_dis_scan_comparison cfg) then
              match ScanMatch node preceding_node with
              | Some off =>
                  non_successive_loop is' (S num_added_factors)
                    (addObservationConstraint graph (node_number node)
                       (node_number preceding_node) off)
              | None => non_successive_loop is' num_added_factors graph
              end
            else non_successive_loop is' num_added_factors graph
        end
  end.
End NonSuccessive.

(** [SLAM::updatePoseGraphObsConstraints(new_node)] on the node list
    [pg_nodes_] and the graph [graph_]: the new graph, or [None] where
    [pg_nodes_[...]] is read out of range. *)
Definition updatePoseGraphObsConstraints (pg_nodes : list PgNode) (graph : list Factor)
    (new_node : PgNode) : option (list Factor) :=
  match node_number new_node with
  | O => None
  | S pred =>
      match nth_error pg_nodes pred with
      | None => None
      | Some preceding_node =>
          let graph :=
            match ScanMatch preceding_node new_node with
            | Some successive_scan_offset =>
                addObservationConstraint graph (node_number preceding_node)
                  (node_number new_node) successive_scan_offset
            | None => graph
            end in
          if non_successive_scan_constraints cfg && Nat.ltb 2 (node_number new_node) then
            non_successive_loop pg_nodes preceding_node
              (seq 0 (node_number new_node - 2)) 0 graph
          else Some graph
      end
  end.

Definition with_graph (s : SLAM) (graph : list Factor) : SLAM :=
  mkSLAM (prev_odom_loc_ s) (prev_odom_angle_ s) (odom_initialized_ s) (first_scan s)
    (last_node_cumulative_dist_ s) (last_node_odom_pose_ s) (pg_nodes_ s)
    (recent_point_cloud_ s) graph (isam_ s) (stopSlamCmdRecv_ s).

(** The loop that overwrites each node's pose with [result.at<Pose2>(key)]. *)
Fixpoint update_nodes (isam : ISAM2) (nodes : list PgNode) : option (list PgNode) :=
  match nodes with
  | [] => Some []
  | pg_node :: nodes' =>
      match calculateEstimate isam (node_number pg_node) with
      | None => None
      | Some estimated_pose =>
          option_map (cons (setPose pg_node (translation estimated_pose) (angle estimated_pose)))
            (update_nodes isam nodes')
      end
  end.

(** [SLAM::optimizePoseGraph(new_node_init_estimates)]:
    [isam_->update( *graph_, new_node_init_estimates)], then every node's
    pose is overwritten with the estimate. *)
Definition optimizePoseGraph (s : SLAM) (new_node_init_estimates : Values) : option SLAM :=
  let isam := isam_ s ++ [(graph_ s, new_node_init_estimates)] in
  match update_nodes isam (pg_nodes_ s) with
  | None => None
  | Some nodes =>
      Some (mkSLAM (prev_odom_loc_ s) (prev_odom_angle_ s) (odom_initialized_ s) (first_scan s)
              (last_node_cumulative_dist_ s) (last_node_odom_pose_ s) nodes
              (recent_point_cloud_ s) (graph_ s) isam (stopSlamCmdRecv_ s))
  end.

(** [Pose2(initial_node_global_x, initial_node_global_y, initial_node_global_theta)] *)
Definition initial_node_global_pose : Pose2Df :=
  mkPose (initial_node_global_theta cfg)
    (initial_node_global_x cfg, initial_node_global_y cfg).

(** the prior of node [key] *)
Definition init_prior (key : nat) : Factor :=
  PriorFactor key initial_node_global_pose
    (new_node_x_std cfg, new_node_y_std cfg, new_node_theta_std cfg).

(** [SLAM::updatePoseGraph]; [None] where a collaborator throws or the
    code reads out of range. *)
Definition updatePoseGraph (s : SLAM) : option SLAM :=
  let odom_pose := mkPose (prev_odom_angle_ s) (prev_odom_loc_ s) in
  if first_scan s then
    let _pose := initial_node_global_pose in
    let node_number := length (pg_nodes_ s) in
    let new_node := mkPgNode _pose node_number (recent_point_cloud_ s) in
    let graph :=
      if runOnline cfg then graph_ s ++ [init_prior (node_number)] else graph_ s in
    let s1 := mkSLAM (prev_odom_loc_ s) (prev_odom_angle_ s) (odom_initialized_ s) false
                (last_node_cumulative_dist_ s) odom_pose (pg_nodes_ s ++ [new_node])
                (recent_point_cloud_ s) graph (isam_ s) (stopSlamCmdRecv_ s) in
    if runOnline cfg then
      optimizePoseGraph s1 [(node_number, estimated_pose new_node)]
    else Some s1
  else
    match last (map Some (pg_nodes_ s)) None with
    | None => None
    | Some back =>
        let rel_pos_to_last_node_odom_pose :=
          transformPoseFromMap2Target odom_pose (last_node_odom_pose_ s) in
        let pos_map := transformPoseFromSrc2Map rel_pos_to_last_node_odom_pose
                         (estimated_pose back) in
        let node_number := length (pg_nodes_ s) in
        let new_node := mkPgNode pos_map node_number (recent_point_cloud_ s) in
        let graph :=
          if runOnline cfg then updatePoseGraphObsConstraints (pg_nodes_ s) (graph_ s) new_node
          else Some (graph_ s) in
        match graph with
        | None => None
        | Some graph =>
            let s1 := mkSLAM (prev_odom_loc_ s) (prev_odom_angle_ s) (odom_initialized_ s)
                        (first_scan s) (last_node_cumulative_dist_ s) odom_pose
                        (pg_nodes_ s ++ [new_node]) (recent_point_cloud_ s) graph (isam_ s)
                        (stopSlamCmdRecv_ s) in
            if runOnline cfg then
              optimizePoseGraph s1 [(node_number, estimated_pose new_node)]
            else Some s1
        end
    end.

Definition with_cloud (s : SLAM) (cloud : list point) : SLAM :=
  mkSLAM (prev_odom_loc_ s) (prev_odom_angle_ s) (odom_initialized_ s) (first_scan s)
    (last_node_cumulative_dist_ s) (last_node_odom_pose_ s) (pg_nodes_ s) cloud
    (graph_ s) (isam_ s) (stopSlamCmdRecv_ s).

(** [SLAM::ObserveLaser] *)
Definition ObserveLaser (s : SLAM) (ranges : list R) (range_min range_max angle_min angle_max : R)
  : option SLAM :=
  if negb (stopSlamCmdRecv_ s) then
    let '(add, s1) := shouldAddPgNode s in
    if add then
      match convertLidar2PointCloud ranges range_min range_max angle_min angle_max with
      | None => None
      | Some cloud => updatePoseGraph (with_cloud s1 cloud)
      end
    else Some s1
  else Some s.

(** The [for (i = 0; i < pg_nodes_.size(); i++)] loop of
    [offlineOptimizePoseGraph] that rebuilds the graph, over the indices
    [todo] still to visit. *)
Fixpoint offline_constraints (pg_nodes : list PgNode) (todo : list nat) (graph : list Factor)
  : option (list Factor) :=
  match todo with
  | [] => Some graph
  | i :: todo' =>
      match nth_error pg_nodes i with
      | None => None
      | Some node =>
          let graph' :=
            if Nat.eqb i 0 then Some (graph ++ [init_prior (node_number node)])
            else updatePoseGraphObsConstraints pg_nodes graph node in
          match graph' with
          | None => None
          | Some g => offline_constraints pg_nodes todo' g
          end
      end
  end.

(** [SLAM::offlineOptimizePoseGraph], with its function static
    [run_before]: a fresh graph and a fresh [ISAM2] receive the rebuilt
    graph and every node's pose in one [update]. *)
Definition offlineOptimizePoseGraph (p : Process) : option Process :=
  if run_before p then Some p
  else
    let s := slam_ p in
    match offline_constraints (pg_nodes_ s) (seq 0 (length (pg_nodes_ s))) [] with
    | None => None
    | Some graph =>
        let init_estimate_for_all_nodes :=
          map (fun n => (node_number n, estimated_pose n)) (pg_nodes_ s) in
        let isam := [(graph, init_estimate_for_all_nodes)] in
        match update_nodes isam (pg_nodes_ s) with
        | None => None
        | Some nodes =>
            Some (mkProcess
                    (mkSLAM (prev_odom_loc_ s) (prev_odom_angle_ s) (odom_initialized_ s)
                       (first_scan s) (last_node_cumulative_dist_ s) (last_node_odom_pose_ s)
                       nodes (recent_point_cloud_ s) graph isam (stopSlamCmdRecv_ s))
                    true)
        end
    end.

(** [SLAM::stop_frontend] *)
Definition stop_frontend (p : Process) : option Process :=
  let s := slam_ p in
  let s1 := mkSLAM (prev_odom_loc_ s) (prev_odom_angle_ s) (odom_initialized_ s)
              (first_scan s) (last_node_cumulative_dist_ s) (last_node_odom_pose_ s)
              (pg_nodes_ s) (recent_point_cloud_ s) (graph_ s) (isam_ s) true in
  offlineOptimizePoseGraph (mkProcess s1 (run_before p)).

(** The callbacks of [slam_main.cc] that reach [slam_]. *)
Inductive Event : Type :=
| LaserCallback (ranges : list R) (range_min range_max angle_min angle_max : R)
| OdometryCallback (odom_loc : R * R) (odom_angle : R)
| StopSlamCallback.

Definition step (p : Process) (e : Event) : option Process :=
  match e with
  | LaserCallback ranges rmin rmax amin amax =>
      option_map (fun s => mkProcess s (run_before p))
        (ObserveLaser (slam_ p) ranges rmin rmax amin amax)
  | OdometryCallback loc a =>
      Some (mkProcess (ObserveOdometry (slam_ p) loc a) (run_before p))
  | StopSlamCallback => stop_frontend p
  end.

Fixpoint run (p : Process) (es : list Event) : option Process :=
  match es with
  | [] => Some p
  | e :: es' =>
      match step p e with
      | None => None
      | Some p' => run p' es'
      end
  end.
End Slam.

Arguments Factor Cov : clear implicits.
Arguments Values : clear implicits.
Arguments ISAM2 Cov : clear implicits.
Arguments SLAM Cov : clear implicits.
Arguments Process Cov : clear implicits.

(** ** Accessors and the front end's output *)

(** [SLAM::GetPose]: the robot's location and heading in the map frame,
    the odometry since the last node applied to the last node's
    estimate. *)
Definition GetPose {Cov : Type} (s : SLAM Cov) : (R * R) * R :=
  match pg_nodes_ s with
  | [] => ((0, 0), 0)
  | n0 :: _ =>
      let rel_pos_to_last_node_odom_pose :=
        transformPoseFromMap2Target (mkPose (prev_odom_angle_ s) (prev_odom_loc_ s))
          (last_node_odom_pose_ s) in
      let pos_map :=
        transformPoseFromSrc2Map rel_pos_to_last_node_odom_pose
          (estimated_pose (last (pg_nodes_ s) n0)) in
      (translation pos_map, angle pos_map)
  end.

(** [Eigen::Rotation2Df(theta) * v] on a float vector: the rotation matrix
    [[cos, -sin], [sin, cos]] times [v]. *)
Definition xrotate (theta : R) (v : point) : point :=
  (xadd (xmul (Fin (cos theta)) (fst v)) (xmul (Fin (- sin theta)) (snd v)),
   xadd (xmul (Fin (sin theta)) (fst v)) (xmul (Fin (cos theta)) (snd v))).

(** [transformPoseFromSrc2Map(Pose2Df(0, point), node_pose).translation]:
    the translation part of the transform, on a float point. *)
Definition map_point (node_pose : Pose2Df) (p : point) : point :=
  let rotated_still_src_transl := xrotate (angle node_pose) p in
  (xadd (Fin (fst (translation node_pose))) (fst rotated_still_src_transl),
   xadd (Fin (snd (translation node_pose))) (snd rotated_still_src_transl)).

(** [SLAM::GetMap]: every node's point cloud, placed at the node's
    estimated pose, node by node. *)
Definition GetMap {Cov : Type} (s : SLAM Cov) : list point :=
  flat_map (fun node => map (map_point (estimated_pose node)) (point_cloud node)) (pg_nodes_ s).

(** [Eigen::Matrix3d], row by row. *)
Definition Matrix3d : Type := list (list R).

(** [SLAM::runCSM]: the match node's pose relative to the base node's,
    with the identity covariance. *)
Definition runCSM (base_node match_node : PgNode) : Pose2Df * Matrix3d :=
  let rel_pose := transformPoseFromMap2Target (estimated_pose match_node)
                    (estimated_pose base_node) in
  let est_cov := [[1; 0; 0]; [0; 1; 0]; [0; 0; 1]] in
  (rel_pose, est_cov).

(** The rate limit of [PublishMap] ([slam_main.cc]), with its function
    static [t_last]: [now] is the first reading of [GetMonotonicTime()],
    [now'] the second, taken when it publishes.  The answer is whether it
    publishes, and the new [t_last]. *)
Definition PublishMap_gate (t_last now now' : R) : bool * R :=
  if Rltb (now - t_last) 0.5 then (false, t_last) else (true, now').

(** A sequence of [PublishMap] calls, each with its two clock readings,
    from [t_last]: the [t_last] recorded at each publication. *)
Fixpoint PublishMap_calls (t_last : R) (calls : list (R * R)) : list R :=
  match calls with
  | [] => []
  | (now, now') :: calls' =>
      let '(published, t_last') := PublishMap_gate t_last now now' in
      if published then t_last' :: PublishMap_calls t_last' calls'
      else PublishMap_calls t_last' calls'
  end.

(** * Properties *)

(** ** Auxiliary facts *)

Lemma AngleMod_shift (a : R) : exists k : Z, AngleMod a = a + 2 * PI * IZR k.
Proof. unfold AngleMod. eexists. reflexivity. Qed.

Lemma rotate_neg_rotate (theta : R) (v : R * R) : rotate (- theta) (rotate theta v) = v.
Proof.
  destruct v as [x y]. unfold rotate; simpl.
  rewrite cos_neg, sin_neg.
  pose proof (sin2_cos2 theta) as H. unfold Rsqr in H.
  f_equal.
  - transitivity (x * (sin theta * sin theta + cos theta * cos theta)); [ring|].
    rewrite H; ring.
  - transitivity (y * (sin theta * sin theta + cos theta * cos theta)); [ring|].
    rewrite H; ring.
Qed.

Lemma Int_part_le (r : R) : IZR (Int_part r) <= r.
Proof. destruct (base_Int_part r) as [H _]. exact H. Qed.

Lemma Int_part_lt (r : R) : r - 1 < IZR (Int_part r).
Proof. destruct (base_Int_part r) as [_ H]. lra. Qed.

(** ** C3: the two frame transforms are inverse *)

(** C3: for every pose [p] and reference [r],
    [transformPoseFromMap2Target (transformPoseFromSrc2Map p r) r] has the
    translation of [p], and its angle differs from the angle of [p] by a
    multiple of 2*pi (computed over the reals). *)
Theorem transform_src2map_map2target_inverse (p r : Pose2Df) :
  let q := transformPoseFromMap2Target (transformPoseFromSrc2Map p r) r in
  translation q = translation p /\ exists k : Z, angle q = angle p + 2 * PI * IZR k.
Proof.
  cbn zeta. split.
  - unfold transformPoseFromMap2Target, transformPoseFromSrc2Map; simpl.
    destruct (translation r) as [rx ry] eqn:Er.
    destruct (rotate (angle r) (translation p)) as [x y] eqn:Ep.
    unfold vsub, vadd; simpl.
    replace (rx + x - rx, ry + y - ry) with (x, y) by (f_equal; ring).
    rewrite <- Ep. apply rotate_neg_rotate.
  - unfold transformPoseFromMap2Target, transformPoseFromSrc2Map; simpl.
    destruct (AngleMod_shift (angle r + angle p)) as [k1 E1].
    destruct (AngleMod_shift (AngleMod (angle r + angle p) - angle r)) as [k2 E2].
    rewrite E2, E1. exists (k1 + k2)%Z. rewrite plus_IZR. ring.
Qed.

(** ** C7: the admission check *)

(** C7: [shouldAddPgNode] answers [true] exactly when the cumulative
    distance exceeds the translation threshold or the circular distance
    between the current odometry heading and the heading stored at the last
    node exceeds the angle threshold (both strictly); on [true] the distance
    counter becomes 0, on [false] the state is unchanged, and the stored
    heading reference is never modified. *)
Theorem shouldAddPgNode_spec {Cov : Type} (cfg : Config) (s : SLAM Cov) :
  let '(add, s') := shouldAddPgNode cfg s in
  (add = true <->
     min_trans_diff_between_nodes cfg < last_node_cumulative_dist_ s
     \/ min_angle_diff_between_nodes cfg
        < AngleDist (prev_odom_angle_ s) (angle (last_node_odom_pose_ s)))
  /\ (add = true -> s' = with_dist s 0)
  /\ (add = false -> s' = s)
  /\ last_node_odom_pose_ s' = last_node_odom_pose_ s.
Proof.
  unfold shouldAddPgNode, Rltb.
  destruct (Rlt_dec (min_trans_diff_between_nodes cfg) (last_node_cumulative_dist_ s)) as [H1|H1];
  destruct (Rlt_dec (min_angle_diff_between_nodes cfg)
              (AngleDist (prev_odom_angle_ s) (angle (last_node_odom_pose_ s)))) as [H2|H2];
  simpl; repeat split; intros; try discriminate; try reflexivity; try tauto.
Qed.

(** ** C10: odometry accumulation *)

(** C10: [ObserveOdometry] adds to the cumulative distance exactly the norm
    of the move from the stored location, whatever [odom_initialized_] is;
    the stored location starts at (0, 0), so the first observation after
    construction adds the distance from the origin. *)
Theorem ObserveOdometry_cumulative_dist :
  forall Cov : Type,
  (forall (s : SLAM Cov) (odom_loc : R * R) (odom_angle : R),
      last_node_cumulative_dist_ (ObserveOdometry s odom_loc odom_angle)
      = last_node_cumulative_dist_ s + norm (vsub odom_loc (prev_odom_loc_ s))
      /\ prev_odom_loc_ (ObserveOdometry s odom_loc odom_angle) = odom_loc)
  /\ prev_odom_loc_ (@SLAM_init Cov) = (0, 0)
  /\ (forall (x y odom_angle : R),
        last_node_cumulative_dist_ (ObserveOdometry (@SLAM_init Cov) (x, y) odom_angle)
        = sqrt (x * x + y * y)).
Proof.
  intros Cov. split; [|split].
  - intros; split; reflexivity.
  - reflexivity.
  - intros. unfold ObserveOdometry, norm, vsub; simpl.
    rewrite Rplus_0_l. f_equal. ring.
Qed.

(** ** C4, C5: the point-cloud projector *)

Lemma xdiv_fin_nz (a b : R) : b <> 0 -> xdiv (Fin a) (Fin b) = Fin (a / b).
Proof. intros H. unfold xdiv. destruct (Req_EM_T b 0); [contradiction|reflexivity]. Qed.

Lemma xdiv_fin_z (a : R) : xdiv (Fin a) (Fin 0) = xinf_of_sign a.
Proof. unfold xdiv. destruct (Req_EM_T 0 0); [reflexivity|congruence]. Qed.

Lemma xinf_of_sign_0 : xinf_of_sign 0 = NaN.
Proof.
  unfold xinf_of_sign. destruct (Rlt_dec 0 0); [lra|]. destruct (Rlt_dec 0 0); [lra|]. reflexivity.
Qed.

(** The loop bound of the projector has no [unsigned int] value for an
    empty range array or a degenerate angle span. *)
Lemma convertLidar2PointCloud_no_loop_bound
    (ranges : list R) (range_min range_max angle_min angle_max : R) :
  ranges = [] \/ angle_max = angle_min ->
  convertLidar2PointCloud ranges range_min range_max angle_min angle_max = None.
Proof.
  intros H. unfold convertLidar2PointCloud.
  destruct (Req_EM_T (angle_max - angle_min) 0) as [Hd|Hd].
  - rewrite Hd.
    destruct (Req_EM_T (INR (length ranges) - 1) 0) as [E|E].
    + rewrite E, xdiv_fin_z, xinf_of_sign_0. reflexivity.
    + rewrite xdiv_fin_nz by exact E.
      replace (0 / (INR (length ranges) - 1)) with 0 by (field; exact E).
      rewrite xdiv_fin_z, xinf_of_sign_0. reflexivity.
  - destruct H as [H|H]; [|exfalso; apply Hd; lra].
    subst ranges. simpl length. simpl INR.
    rewrite xdiv_fin_nz by lra.
    rewrite xdiv_fin_nz.
    + replace ((angle_max - angle_min) / ((angle_max - angle_min) / (0 - 1))) with (-1)
        by (field; lra).
      unfold xfloor, to_unsigned.
      pose proof (Int_part_le (-1)).
      destruct (Rlt_dec (-1) (IZR (Int_part (-1)))); [lra|reflexivity].
    + intros E'. apply Hd.
      replace (angle_max - angle_min) with (- ((angle_max - angle_min) / (0 - 1))) by (field; lra).
      rewrite E'. ring.
Qed.

(** C4 (corrected): the projector has no guard for an empty range array or
    a degenerate angle span.  There the loop bound
    [floor((angle_max - angle_min) / angle_increment)] is -1 (for an empty
    array and a non-degenerate span) or NaN (0/0, for a degenerate span),
    and its conversion to [unsigned int] is undefined behaviour. *)
Theorem convertLidar2PointCloud_empty_or_degenerate_undefined
    (ranges : list R) (range_min range_max angle_min angle_max : R) :
  ranges = [] \/ angle_max = angle_min ->
  convertLidar2PointCloud ranges range_min range_max angle_min angle_max = None.
Proof. apply convertLidar2PointCloud_no_loop_bound. Qed.

(** C4: the empty range array with a non-degenerate span, the input of the
    counterexample. *)
Lemma convertLidar2PointCloud_empty_counterexample :
  ~ (forall range_min range_max angle_min angle_max : R,
       convertLidar2PointCloud [] range_min range_max angle_min angle_max = Some []).
Proof.
  intros H. specialize (H 0 10 0 1).
  rewrite convertLidar2PointCloud_no_loop_bound in H by tauto.
  discriminate.
Qed.

(** C4: the theorem at the empty array and a span of one radian. *)
Lemma convertLidar2PointCloud_empty_or_degenerate_undefined_witness :
  convertLidar2PointCloud [] 0 10 0 1 = None.
Proof. apply convertLidar2PointCloud_empty_or_degenerate_undefined. left. reflexivity. Defined.

(** For an array of [N >= 2] readings and a non-degenerate span, the
    increment is [(angle_max - angle_min) / (N - 1)] and the loop runs
    [N - 1] times: index [N - 1] is never visited. *)
Lemma convertLidar2PointCloud_loop_bound
    (ranges : list R) (range_min range_max angle_min angle_max : R) :
  (2 <= length ranges)%nat -> INR (length ranges) <= IZR (2 ^ 32) -> angle_max <> angle_min ->
  let angle_increment := (angle_max - angle_min) / (INR (length ranges) - 1) in
  convertLidar2PointCloud ranges range_min range_max angle_min angle_max
  = lidar_loop ranges range_min range_max (Fin angle_increment) (length ranges - 1) 0
      (Fin (angle_min - angle_increment)).
Proof.
  intros HN HN' Hd. cbn zeta. unfold convertLidar2PointCloud.
  assert (HN1 : INR (length ranges) - 1 = INR (length ranges - 1)).
  { rewrite minus_INR by lia. reflexivity. }
  assert (Hpos : 1 <= INR (length ranges - 1)).
  { replace 1 with (INR 1) by reflexivity. apply le_INR. lia. }
  rewrite xdiv_fin_nz by lra.
  rewrite xdiv_fin_nz.
  2:{ rewrite HN1. intros E. apply Hd. unfold Rdiv in E.
      apply Rmult_integral in E. destruct E as [E|E]; [lra|].
      exfalso. revert E. apply Rinv_neq_0_compat. lra. }
  replace ((angle_max - angle_min) / ((angle_max - angle_min) / (INR (length ranges) - 1)))
    with (INR (length ranges - 1)) by (rewrite HN1; field; split; lra).
  unfold xfloor, to_unsigned. rewrite Int_part_INR. rewrite <- INR_IZR_INZ.
  assert (Hlt : INR (length ranges - 1) < IZR (2 ^ 32)).
  { rewrite <- HN1. lra. }
  destruct (Rlt_dec (-1) (INR (length ranges - 1))) as [_|C]; [|lra].
  destruct (Rlt_dec (INR (length ranges - 1)) (IZR (2 ^ 32))) as [_|C]; [|lra].
  destruct (Rle_dec 0 (INR (length ranges - 1))) as [_|C]; [|lra].
  rewrite Int_part_INR, Nat2Z.id. reflexivity.
Qed.

(** C5 (code bug): two in-range readings over the span [0, 1] yield one
    point: the loop bound is [N - 1], so the reading at the last index is
    dropped. *)
Theorem convertLidar2PointCloud_drops_last_reading :
  option_map (@length point) (convertLidar2PointCloud [1; 1] 0 10 0 1) = Some 1%nat
  /\ Forall (fun r => 0 < r < 10) [1; 1].
Proof.
  split.
  - rewrite convertLidar2PointCloud_loop_bound.
    2:{ simpl. lia. }
    2:{ replace (IZR (2 ^ 32)) with 4294967296 by reflexivity. simpl INR. lra. }
    2:{ lra. }
    simpl lidar_loop. unfold Rleb.
    destruct (Rle_dec 10 1); [lra|]. destruct (Rle_dec 1 0); [lra|]. reflexivity.
  - repeat constructor; lra.
Qed.

(** ** C6, C8: observation constraints *)

Section Constraints.
Context {Cov : Type}.
Variable cov_identity : Cov.
Variable cfg : Config.
Variable GetTransform : list point -> list point -> Trans -> bool * (Trans * Cov).

Local Abbreviation ScanMatch := (ScanMatch cov_identity cfg GetTransform).
Local Abbreviation non_successive_loop := (non_successive_loop cov_identity cfg GetTransform).
Local Abbreviation updatePoseGraphObsConstraints :=
  (updatePoseGraphObsConstraints cov_identity cfg GetTransform).

(** the [node_dist] of the loop *)
Definition node_dist (node preceding_node : PgNode) : R :=
  norm (vsub (translation (estimated_pose node)) (translation (estimated_pose preceding_node))).

(** the factor a successful non-successive match of candidate [i] adds *)
Definition ns_factor (preceding_node : PgNode) (x : nat * PgNode * (Pose2Df * Cov)) : Factor Cov :=
  let '(_, node, off) := x in
  BetweenFactor (node_number node) (node_number preceding_node) (fst off) (snd off).

Definition ns_index (x : nat * PgNode * (Pose2Df * Cov)) : nat := fst (fst x).

Lemma Rleb_true_iff (a b : R) : Rleb a b = true <-> a <= b.
Proof. unfold Rleb. destruct (Rle_dec a b); split; intros; auto; try discriminate; lra. Qed.

Lemma Rleb_false_iff (a b : R) : Rleb a b = false <-> b < a.
Proof. unfold Rleb. destruct (Rle_dec a b); split; intros; auto; try discriminate; lra. Qed.

(** The loop over candidates [a .. a + len - 1], entered with [k] factors
    already added, adds the matches of a sorted selection of qualifying
    candidates, each while fewer than [max_factors_per_node] had been
    added; a qualifying candidate left out was reached with the count at
    the maximum. *)
Lemma non_successive_loop_spec (pg_nodes : list PgNode) (preceding_node : PgNode) :
  forall len a k graph graph',
  non_successive_loop pg_nodes preceding_node (seq a len) k graph = Some graph' ->
  exists sel,
    graph' = graph ++ map (ns_factor preceding_node) sel
    /\ (forall i node off, In (i, node, off) sel ->
          (a <= i < a + len)%nat /\ nth_error pg_nodes i = Some node
          /\ node_dist node preceding_node <= maximum_node_dis_scan_comparison cfg
          /\ ScanMatch node preceding_node = Some off)
    /\ StronglySorted (fun x y => ns_index x < ns_index y)%nat sel
    /\ (sel = [] \/ INR (k + length sel - 1) < max_factors_per_node cfg)
    /\ (forall i node, (a <= i < a + len)%nat -> nth_error pg_nodes i = Some node ->
          node_dist node preceding_node <= maximum_node_dis_scan_comparison cfg ->
          ScanMatch node preceding_node <> None -> ~ In i (map ns_index sel) ->
          max_factors_per_node cfg
          <= INR (k + length (filter (fun x => Nat.ltb (ns_index x) i) sel))).
Proof.
  induction len as [|len IH]; intros a k graph graph' H.
  - simpl in H. injection H as <-. exists []. simpl.
    rewrite app_nil_r. repeat split; auto; try (intros; lia).
    constructor.
  - cbn [seq non_successive_loop] in H.
    destruct (Rleb (max_factors_per_node cfg) (INR k)) eqn:Ek.
    { injection H as <-. apply Rleb_true_iff in Ek. exists []. simpl.
      rewrite app_nil_r, Nat.add_0_r. repeat split; auto; try (intros; lia).
      constructor. }
    apply Rleb_false_iff in Ek.
    destruct (nth_error pg_nodes a) as [node|] eqn:En; [|discriminate].
    fold (node_dist node preceding_node) in H.
    destruct (Rleb (node_dist node preceding_node) (maximum_node_dis_scan_comparison cfg)) eqn:Ed.
    + destruct (ScanMatch node preceding_node) as [off|] eqn:Es.
      * apply IH in H as (sel & Hg & Hin & Hsort & Hcount & Hmiss).
        exists ((a, node, off) :: sel). split; [|split; [|split; [|split]]].
        -- rewrite Hg. unfold addObservationConstraint. simpl.
           rewrite <- app_assoc. reflexivity.
        -- intros i node' off' [E|E].
           ++ injection E as <- <- <-. apply Rleb_true_iff in Ed. repeat split; auto; lia.
           ++ destruct (Hin _ _ _ E) as (Hb & H1 & H2 & H3). repeat split; auto; lia.
        -- constructor; [exact Hsort|].
           apply Forall_forall. intros [[i node'] off'] E. apply Hin in E. unfold ns_index. simpl. lia.
        -- right. destruct Hcount as [->|Hc].
           ++ simpl. replace (k + 1 - 1)%nat with k by lia. exact Ek.
           ++ simpl. replace (k + S (length sel) - 1)%nat with (S k + length sel - 1)%nat by lia.
              exact Hc.
        -- intros i node' Hi Hn Hd Hs Hnot.
           assert (i <> a) as Hia.
           { intros ->. apply Hnot. left. reflexivity. }
           assert (Nat.ltb (ns_index (a, node, off)) i = true) as Ea
             by (unfold ns_index; simpl; apply Nat.ltb_lt; lia).
           cbn [filter]. rewrite Ea. cbn [length]. replace (k + S _)%nat with (S k + length (filter (fun x => Nat.ltb (ns_index x) i) sel))%nat by lia.
           apply (Hmiss i node'); auto; [lia|].
           intros E. apply Hnot. right. exact E.
      * apply IH in H as (sel & Hg & Hin & Hsort & Hcount & Hmiss).
        exists sel. split; [exact Hg|split; [|split; [exact Hsort|split; [exact Hcount|]]]].
        -- intros i node' off' E. destruct (Hin _ _ _ E) as (Hb & H1 & H2 & H3). repeat split; auto; lia.
        -- intros i node' Hi Hn Hd Hs Hnot.
           destruct (Nat.eq_dec i a) as [->|Hia].
           ++ rewrite En in Hn. injection Hn as <-. contradiction.
           ++ exact (Hmiss i node' ltac:(lia) Hn Hd Hs Hnot).
    + apply IH in H as (sel & Hg & Hin & Hsort & Hcount & Hmiss).
      exists sel. split; [exact Hg|split; [|split; [exact Hsort|split; [exact Hcount|]]]].
      * intros i node' off' E. destruct (Hin _ _ _ E) as (Hb & H1 & H2 & H3). repeat split; auto; lia.
      * intros i node' Hi Hn Hd Hs Hnot.
        destruct (Nat.eq_dec i a) as [->|Hia].
        -- rewrite En in Hn. injection Hn as <-. apply Rleb_false_iff in Ed. lra.
        -- exact (Hmiss i node' ltac:(lia) Hn Hd Hs Hnot).
Qed.

(** Every factor [updatePoseGraphObsConstraints] appends connects two of
    the nodes it was given, with the measurement and covariance of a
    converged scan match of that pair. *)
Lemma updatePoseGraphObsConstraints_added (pg_nodes : list PgNode)
    (graph graph' : list (Factor Cov)) (new_node : PgNode) :
  updatePoseGraphObsConstraints pg_nodes graph new_node = Some graph' ->
  exists added, graph' = graph ++ added
    /\ forall f, In f added ->
       exists x y m c, In x (new_node :: pg_nodes) /\ In y (new_node :: pg_nodes)
         /\ f = BetweenFactor (node_number x) (node_number y) m c
         /\ ScanMatch x y = Some (m, c).
Proof.
  unfold updatePoseGraphObsConstraints.
  destruct (node_number new_node) as [|pred] eqn:En; [discriminate|].
  destruct (nth_error pg_nodes pred) as [preceding_node|] eqn:Ep; [|discriminate].
  assert (Hp : In preceding_node (new_node :: pg_nodes))
    by (right; eapply nth_error_In; exact Ep).
  assert (Hnew : In new_node (new_node :: pg_nodes)) by (left; reflexivity).
  assert (Hsucc : exists added0,
             match ScanMatch preceding_node new_node with
             | Some off => addObservationConstraint graph (node_number preceding_node) (S pred) off
             | None => graph
             end = graph ++ added0
             /\ forall f, In f added0 ->
                exists x y m c, In x (new_node :: pg_nodes) /\ In y (new_node :: pg_nodes)
                  /\ f = BetweenFactor (node_number x) (node_number y) m c
                  /\ ScanMatch x y = Some (m, c)).
  { destruct (ScanMatch preceding_node new_node) as [[m c]|] eqn:Es.
    - exists [BetweenFactor (node_number preceding_node) (S pred) m c]. split; [reflexivity|].
      intros f [<-|[]]. exists preceding_node, new_node, m, c.
      rewrite En. repeat split; auto.
    - exists []. rewrite app_nil_r. split; [reflexivity|]. intros f []. }
  destruct Hsucc as (added0 & Hg0 & Hadd0). rewrite Hg0.
  destruct (non_successive_scan_constraints cfg && Nat.ltb 2 (S pred)).
  - intros H. apply non_successive_loop_spec in H as (sel & Hg & Hin & _).
    exists (added0 ++ map (ns_factor preceding_node) sel).
    split; [rewrite Hg, app_assoc; reflexivity|].
    intros f Hf. apply in_app_or in Hf as [Hf|Hf]; [exact (Hadd0 f Hf)|].
    apply in_map_iff in Hf as ([[i node] off] & <- & Hsel).
    destruct (Hin _ _ _ Hsel) as (_ & Hn & _ & Hs).
    exists node, preceding_node, (fst off), (snd off).
    repeat split; auto.
    + right. eapply nth_error_In. exact Hn.
    + rewrite Hs. destruct off. reflexivity.
  - intros H. injection H as <-. exists added0. auto.
Qed.

(** C6 (corrected): with non-successive constraints enabled, the
    candidates for the new node [n] are the earlier nodes [0 .. n - 3]
    (the nodes [n - 2], [n - 1] and [n] are excluded; there are none when
    [n <= 2]), each kept when its estimated position is within
    [maximum_node_dis_scan_comparison] of the predecessor's (inclusive).
    They are visited in ascending id order, first match wins: the factors
    added after the successive one come from a sorted selection of
    candidates whose match converged, each added while fewer than
    [max_factors_per_node] factors had been added (so there are at most
    [max_factors_per_node] of them when that is a whole number), a
    qualifying candidate is left out only once that count is reached, and
    each factor goes from the candidate to the predecessor [n - 1]. *)
Theorem updatePoseGraphObsConstraints_non_successive (pg_nodes : list PgNode)
    (graph graph' : list (Factor Cov)) (new_node : PgNode) :
  non_successive_scan_constraints cfg = true ->
  updatePoseGraphObsConstraints pg_nodes graph new_node = Some graph' ->
  let n := node_number new_node in
  exists preceding_node sel,
    (1 <= n)%nat /\ nth_error pg_nodes (n - 1) = Some preceding_node
    /\ graph' = match ScanMatch preceding_node new_node with
                | Some off => addObservationConstraint graph (node_number preceding_node) n off
                | None => graph
                end ++ map (ns_factor preceding_node) sel
    /\ (forall i node off, In (i, node, off) sel ->
          (i < n - 2)%nat /\ nth_error pg_nodes i = Some node
          /\ node_dist node preceding_node <= maximum_node_dis_scan_comparison cfg
          /\ ScanMatch node preceding_node = Some off)
    /\ StronglySorted (fun x y => ns_index x < ns_index y)%nat sel
    /\ (sel = [] \/ INR (length sel - 1) < max_factors_per_node cfg)
    /\ (forall i node, (i < n - 2)%nat -> nth_error pg_nodes i = Some node ->
          node_dist node preceding_node <= maximum_node_dis_scan_comparison cfg ->
          ScanMatch node preceding_node <> None -> ~ In i (map ns_index sel) ->
          max_factors_per_node cfg <= INR (length (filter (fun x => Nat.ltb (ns_index x) i) sel))).
Proof.
  intros Hns. unfold updatePoseGraphObsConstraints. cbn zeta.
  destruct (node_number new_node) as [|pred] eqn:En; [discriminate|].
  replace (S pred - 1)%nat with pred by lia.
  destruct (nth_error pg_nodes pred) as [preceding_node|] eqn:Ep; [|discriminate].
  rewrite Hns. simpl andb.
  destruct (Nat.ltb 2 (S pred)) eqn:Elt.
  - intros H. apply non_successive_loop_spec in H as (sel & Hg & Hin & Hsort & Hcount & Hmiss).
    exists preceding_node, sel. split; [lia|split; [reflexivity|split; [exact Hg|split]]].
    { intros i node off E. destruct (Hin _ _ _ E) as (Hb & H1 & H2 & H3).
      repeat split; auto; lia. }
    split; [exact Hsort|split; [exact Hcount|]].
    intros i node Hi Hn Hd Hs Hnot. exact (Hmiss i node ltac:(lia) Hn Hd Hs Hnot).
  - intros H. injection H as <-. apply Nat.ltb_ge in Elt.
    exists preceding_node, []. rewrite app_nil_r.
    repeat split; auto; try (intros; simpl in *; lia); try constructor.
Qed.

(** C8: when the scan matcher reports [converged = false] for a pair of
    nodes, [ScanMatch] gives no result (whatever transform and covariance
    the matcher filled in) and the call that attempted the pair completes,
    adding no factor between the two nodes.  (Node ids are unique, as
    they are in the pose graph.) *)
Theorem non_converged_match_adds_no_constraint (pg_nodes : list PgNode)
    (graph graph' : list (Factor Cov)) (new_node na nb : PgNode) :
  (forall x y, In x (new_node :: pg_nodes) -> In y (new_node :: pg_nodes) ->
     node_number x = node_number y -> x = y) ->
  In na (new_node :: pg_nodes) -> In nb (new_node :: pg_nodes) ->
  (let odom := transformPoseFromMap2Target (estimated_pose nb) (estimated_pose na) in
   fst (GetTransform (point_cloud nb) (point_cloud na) (translation odom, angle odom)) = false) ->
  updatePoseGraphObsConstraints pg_nodes graph new_node = Some graph' ->
  ScanMatch na nb = None
  /\ exists added, graph' = graph ++ added
     /\ forall m c, ~ In (BetweenFactor (node_number na) (node_number nb) m c) added.
Proof.
  intros Huniq Ha Hb Hconv H.
  assert (Hnone : ScanMatch na nb = None).
  { unfold ScanMatch. cbn zeta in Hconv.
    destruct (GetTransform _ _ _) as [converged transform]. simpl in Hconv.
    rewrite Hconv. reflexivity. }
  split; [exact Hnone|].
  apply updatePoseGraphObsConstraints_added in H as (added & Hg & Hadd).
  exists added. split; [exact Hg|].
  intros m c Hin. destruct (Hadd _ Hin) as (x & y & m' & c' & Hx & Hy & Ef & Hs).
  injection Ef as Ex Ey _ _.
  rewrite (Huniq na x Ha Hx Ex), (Huniq nb y Hb Hy Ey) in Hnone.
  congruence.
Qed.
End Constraints.

(** ** C2, C9: admission of the first node, the one-shot offline pass *)

Section Runs.
Context {Cov : Type}.
Variable cov_identity : Cov.
Variable cfg : Config.
Variable GetTransform : list point -> list point -> Trans -> bool * (Trans * Cov).
Variable calculateEstimate : ISAM2 Cov -> nat -> option Pose2Df.

Local Abbreviation ObserveLaser_with G :=
  (ObserveLaser cov_identity cfg G calculateEstimate).
Local Abbreviation stop_frontend_of := (stop_frontend cov_identity cfg GetTransform calculateEstimate).
Local Abbreviation run := (run cov_identity cfg GetTransform calculateEstimate).

(** C2 (corrected): the first laser observation that passes the admission
    check creates node 0 at the configured global origin, whatever the
    odometry, and without the scan matcher (the result is the same for
    every matcher); in online mode the graph receives the prior of node 0
    at that origin and the solver the origin as node 0's initial value. *)
Theorem first_admission_bootstraps_node0 (s : SLAM Cov) (ranges : list R)
    (range_min range_max angle_min angle_max : R) (cloud : list point) :
  first_scan s = true -> pg_nodes_ s = [] -> stopSlamCmdRecv_ s = false ->
  fst (shouldAddPgNode cfg s) = true ->
  convertLidar2PointCloud ranges range_min range_max angle_min angle_max = Some cloud ->
  let node0 := mkPgNode (initial_node_global_pose cfg) 0 cloud in
  let s_new graph :=
    mkSLAM (prev_odom_loc_ s) (prev_odom_angle_ s) (odom_initialized_ s) false 0
      (mkPose (prev_odom_angle_ s) (prev_odom_loc_ s)) [node0] cloud graph (isam_ s) false in
  (forall G, ObserveLaser_with G s ranges range_min range_max angle_min angle_max
             = ObserveLaser_with GetTransform s ranges range_min range_max angle_min angle_max)
  /\ (runOnline cfg = false ->
      ObserveLaser_with GetTransform s ranges range_min range_max angle_min angle_max
      = Some (s_new (graph_ s)))
  /\ (runOnline cfg = true ->
      ObserveLaser_with GetTransform s ranges range_min range_max angle_min angle_max
      = optimizePoseGraph calculateEstimate (s_new (graph_ s ++ [init_prior cfg 0]))
          [(0%nat, initial_node_global_pose cfg)]).
Proof.
  intros Hfirst Hnodes Hstop Hadd Hcloud. cbn zeta.
  unfold ObserveLaser. rewrite Hstop. simpl negb.
  destruct (shouldAddPgNode cfg s) as [add s1] eqn:Es. simpl in Hadd. subst add.
  assert (Hs1 : s1 = with_dist s 0).
  { pose proof (shouldAddPgNode_spec cfg s) as Hspec. rewrite Es in Hspec.
    destruct Hspec as (_ & H & _). apply H. reflexivity. }
  subst s1. rewrite Hcloud.
  unfold updatePoseGraph, with_cloud, with_dist. simpl. rewrite Hfirst, Hnodes, Hstop. simpl.
  split; [reflexivity|split]; intros Hon; rewrite Hon; reflexivity.
Qed.

Definition stopped (p : Process Cov) : Prop :=
  run_before p = true /\ stopSlamCmdRecv_ (slam_ p) = true.

Lemma stop_frontend_stopped_noop (p : Process Cov) :
  stopped p -> stop_frontend_of p = Some p.
Proof.
  destruct p as [[] rb]. unfold stopped; simpl. intros [-> ->]. reflexivity.
Qed.

Lemma step_stopped (p p' : Process Cov) (e : Event) :
  stopped p ->
  step cov_identity cfg GetTransform calculateEstimate p e = Some p' ->
  stopped p' /\ pg_nodes_ (slam_ p') = pg_nodes_ (slam_ p).
Proof.
  intros Hst. destruct e as [ranges rmin rmax amin amax|loc a|]; simpl.
  - unfold ObserveLaser. destruct Hst as [Hrb Hs]. rewrite Hs. simpl.
    intros H. injection H as <-. unfold stopped. simpl. auto.
  - intros H. injection H as <-. destruct Hst as [Hrb Hs]. unfold stopped. simpl. auto.
  - rewrite stop_frontend_stopped_noop by exact Hst. intros H. injection H as <-. auto.
Qed.

Lemma stop_frontend_stopped (p p1 : Process Cov) :
  stop_frontend_of p = Some p1 -> stopped p1.
Proof.
  unfold stop_frontend, offlineOptimizePoseGraph. simpl.
  destruct (run_before p) eqn:Erb.
  - intros H. injection H as <-. split; reflexivity.
  - destruct (offline_constraints _ _ _ _ _ _) as [graph|]; [|discriminate].
    destruct (update_nodes _ _ _) as [nodes|]; [|discriminate].
    intros H. injection H as <-. split; reflexivity.
Qed.

(** C9: once [stop_frontend] has run, every later invocation is a no-op,
    and no observation delivered in between or after changes the nodes:
    their poses stay those the first invocation left.  ([run_before] is a
    function static: it lives as long as the process.) *)
Theorem stop_frontend_one_shot (p p1 : Process Cov) :
  stop_frontend_of p = Some p1 ->
  forall (es : list Event) (p2 : Process Cov),
    run p1 es = Some p2 ->
    pg_nodes_ (slam_ p2) = pg_nodes_ (slam_ p1) /\ stop_frontend_of p2 = Some p2.
Proof.
  intros H1. apply stop_frontend_stopped in H1.
  intros es. revert p1 H1. induction es as [|e es IH]; intros p1 H1 p2 H.
  - simpl in H. injection H as <-. split; [reflexivity|].
    apply stop_frontend_stopped_noop. exact H1.
  - simpl in H. destruct (step _ _ _ _ p1 e) as [p'|] eqn:E; [|discriminate].
    destruct (step_stopped p1 p' e H1 E) as [Hst Hn].
    destruct (IH p' Hst p2 H) as [Hn' Hs]. split; [congruence|exact Hs].
Qed.
End Runs.

(** ** Concrete inputs *)

(** A configuration with the example thresholds of the spec (translation 1,
    angle 0.52), at most one non-successive factor within 5 length units,
    and the global origin at (0, 0, 0). *)
Definition example_config (online non_successive : bool) : Config :=
  mkConfig 0.52 1 0.1 0.1 0.1 1 5 non_successive 0 0 0 online (negb online) false false.

(** a scan matcher that never converges *)
Definition GetTransform_diverging (match_cloud base_cloud : list point) (odom : Trans)
  : bool * (Trans * unit) := (false, (odom, tt)).

(** a scan matcher that converges on its initial guess *)
Definition GetTransform_odom (match_cloud base_cloud : list point) (odom : Trans)
  : bool * (Trans * unit) := (true, (odom, tt)).

(** a solver that places every node at the origin *)
Definition calculateEstimate_origin (isam : ISAM2 unit) (key : nat) : option Pose2Df :=
  Some (mkPose 0 (0, 0)).

Definition example_node (k : nat) : PgNode := mkPgNode (mkPose 0 (INR k, 0)) k [].

Lemma Rltb_true (a b : R) : a < b -> Rltb a b = true.
Proof. intros H. unfold Rltb. destruct (Rlt_dec a b); [reflexivity|contradiction]. Qed.

Lemma Rltb_false (a b : R) : b <= a -> Rltb a b = false.
Proof. intros H. unfold Rltb. destruct (Rlt_dec a b); [lra|reflexivity]. Qed.

Lemma norm_on_axis (a b : R) : norm (vsub (a, 0) (b, 0)) = Rabs (a - b).
Proof.
  unfold norm, vsub. simpl. rewrite <- sqrt_Rsqr_abs. unfold Rsqr. f_equal. ring.
Qed.

Lemma Int_part_0 : Int_part 0 = 0%Z.
Proof. symmetry. apply Int_part_spec. simpl. lra. Qed.

Lemma to_unsigned_0 : to_unsigned (Fin 0) = Some 0%nat.
Proof.
  unfold to_unsigned. assert (H : 0 < IZR (2 ^ 32)) by (apply IZR_lt; reflexivity).
  destruct (Rlt_dec (-1) 0) as [_|C]; [|lra].
  destruct (Rlt_dec 0 (IZR (2 ^ 32))) as [_|C]; [|lra].
  destruct (Rle_dec 0 0) as [_|C]; [|lra].
  rewrite Int_part_0. reflexivity.
Qed.

(** a single reading over a non-degenerate span: the increment is infinite
    and the loop runs zero times *)
Lemma convertLidar2PointCloud_single (r range_min range_max angle_min angle_max : R) :
  angle_max <> angle_min ->
  convertLidar2PointCloud [r] range_min range_max angle_min angle_max = Some [].
Proof.
  intros Hd. unfold convertLidar2PointCloud. simpl length.
  replace (INR 1 - 1) with 0 by (simpl; ring).
  rewrite xdiv_fin_z.
  assert (Hinf : xinf_of_sign (angle_max - angle_min) = PInf
                 \/ xinf_of_sign (angle_max - angle_min) = NInf).
  { unfold xinf_of_sign. destruct (Rlt_dec 0 (angle_max - angle_min)); [left; reflexivity|].
    destruct (Rlt_dec (angle_max - angle_min) 0); [right; reflexivity|lra]. }
  destruct Hinf as [-> | ->]; cbn [xdiv xfloor]; rewrite Int_part_0, to_unsigned_0; reflexivity.
Qed.

Lemma Int_part_half : Int_part (1 / 2) = 0%Z.
Proof. symmetry. apply Int_part_spec. simpl. lra. Qed.

Lemma AngleMod_0 : AngleMod 0 = 0.
Proof.
  unfold AngleMod. pose proof PI_RGT_0.
  replace ((PI - 0) / (2 * PI)) with (1 / 2) by (field; lra).
  rewrite Int_part_half. simpl. ring.
Qed.

Lemma shouldAddPgNode_dist {Cov : Type} (cfg : Config) (s : SLAM Cov) :
  min_trans_diff_between_nodes cfg < last_node_cumulative_dist_ s ->
  shouldAddPgNode cfg s = (true, with_dist s 0).
Proof. intros H. unfold shouldAddPgNode. rewrite Rltb_true by exact H. reflexivity. Qed.

(** a scan of one reading of 5 over the span [0, 1] *)
Definition example_scan : Event := LaserCallback [5] 0 10 0 1.

(** an offline process state holding nodes 0 and 1 *)
Definition example_state2 : SLAM unit :=
  mkSLAM (1, 0) 0 true false 0 (mkPose 0 (1, 0)) [example_node 0; example_node 1] [] [] [] false.

(** ** C1: online updates *)

(** C1 (code bug): in online mode, with odometry (2, 0, 0), a scan,
    odometry (4, 0, 0) and a scan, the solver's second [update] receives
    the whole graph, so the prior of node 0 it already received in the
    first [update] is delivered again. *)
Theorem online_update_resubmits_prior :
  exists p,
    run tt (example_config true false) GetTransform_odom calculateEstimate_origin Process_init
      [OdometryCallback (2, 0) 0; example_scan; OdometryCallback (4, 0) 0; example_scan] = Some p
    /\ exists between v1 v2,
         isam_ (slam_ p)
         = [([init_prior (example_config true false) 0], v1);
            ([init_prior (example_config true false) 0; between], v2)].
Proof.
  eexists. split.
  - cbn -[Rltb norm convertLidar2PointCloud AngleDist transformPoseFromMap2Target
          transformPoseFromSrc2Map].
    rewrite shouldAddPgNode_dist by (simpl; rewrite norm_on_axis, Rabs_right; lra).
    rewrite convertLidar2PointCloud_single by lra.
    cbn -[Rltb norm convertLidar2PointCloud AngleDist transformPoseFromMap2Target
          transformPoseFromSrc2Map].
    rewrite shouldAddPgNode_dist by (simpl; rewrite norm_on_axis, Rabs_right; lra).
    rewrite convertLidar2PointCloud_single by lra.
    reflexivity.
  - do 3 eexists. reflexivity.
Qed.

(** ** Witnesses and counterexamples *)

(** C2: a scan arriving before any odometry is not admitted: no node 0. *)
Lemma first_laser_not_admitted_counterexample :
  exists p,
    run tt (example_config true false) GetTransform_odom calculateEstimate_origin Process_init
      [example_scan] = Some p
    /\ pg_nodes_ (slam_ p) = [].
Proof.
  eexists. split.
  - cbn -[Rltb AngleDist convertLidar2PointCloud].
    replace (shouldAddPgNode (example_config true false) SLAM_init) with (false, @SLAM_init unit).
    + reflexivity.
    + unfold shouldAddPgNode, AngleDist. simpl.
      rewrite Rminus_0_r, AngleMod_0, Rabs_R0, !Rltb_false by lra. reflexivity.
  - reflexivity.
Qed.

(** C2: the theorem after odometry (2, 0, 0), at the example scan. *)
Lemma first_admission_bootstraps_node0_witness :
  let s := ObserveOdometry (@SLAM_init unit) (2, 0) 0 in
  first_scan s = true /\ pg_nodes_ s = [] /\ stopSlamCmdRecv_ s = false
  /\ fst (shouldAddPgNode (example_config true false) s) = true
  /\ convertLidar2PointCloud [5] 0 10 0 1 = Some []
  /\ ObserveLaser tt (example_config true false) GetTransform_diverging calculateEstimate_origin
       s [5] 0 10 0 1
     = ObserveLaser tt (example_config true false) GetTransform_odom calculateEstimate_origin
       s [5] 0 10 0 1.
Proof.
  cbn zeta.
  assert (H1 : fst (shouldAddPgNode (example_config true false)
                      (ObserveOdometry (@SLAM_init unit) (2, 0) 0)) = true).
  { rewrite shouldAddPgNode_dist by (simpl; rewrite norm_on_axis, Rabs_right; lra).
    reflexivity. }
  assert (H2 : convertLidar2PointCloud [5] 0 10 0 1 = Some [])
    by (apply convertLidar2PointCloud_single; lra).
  split; [reflexivity|split; [reflexivity|split; [reflexivity|split; [exact H1|split; [exact H2|]]]]].
  exact (proj1 (first_admission_bootstraps_node0 tt (example_config true false) GetTransform_odom
                  calculateEstimate_origin (ObserveOdometry (@SLAM_init unit) (2, 0) 0)
                  [5] 0 10 0 1 [] eq_refl eq_refl eq_refl H1 H2)
           GetTransform_diverging).
Defined.

(** C6: the theorem at new node 4 after nodes 0 .. 3 on the x axis, with a
    matcher that converges and at most one non-successive factor: the
    candidates are nodes 0 and 1, both within range of the predecessor 3,
    and the loop selects node 0 alone. *)
Lemma updatePoseGraphObsConstraints_non_successive_witness :
  let nodes := [example_node 0; example_node 1; example_node 2; example_node 3] in
  exists graph',
    non_successive_scan_constraints (example_config true true) = true
    /\ updatePoseGraphObsConstraints tt (example_config true true) GetTransform_odom
         nodes [] (example_node 4) = Some graph'
    /\ exists preceding_node (sel : list (nat * PgNode * (Pose2Df * unit))),
         preceding_node = example_node 3
         /\ graph' = match ScanMatch tt (example_config true true) GetTransform_odom
                             preceding_node (example_node 4) with
                     | Some off => addObservationConstraint [] (node_number preceding_node)
                                     (node_number (example_node 4)) off
                     | None => []
                     end ++ map (ns_factor preceding_node) sel
         /\ map ns_index sel = [0%nat].
Proof.
  cbn zeta.
  assert (H1 : non_successive_scan_constraints (example_config true true) = true) by reflexivity.
  eassert (H2 : updatePoseGraphObsConstraints tt (example_config true true) GetTransform_odom
                  [example_node 0; example_node 1; example_node 2; example_node 3] []
                  (example_node 4) = Some _).
  { unfold updatePoseGraphObsConstraints.
    cbn -[Rleb norm transformPoseFromMap2Target INR].
    rewrite (proj2 (Rleb_false_iff _ _)) by (simpl; lra).
    rewrite (proj2 (Rleb_true_iff _ _))
      by (unfold example_node; cbn [translation estimated_pose];
          rewrite norm_on_axis, Rabs_left; simpl; lra).
    rewrite (proj2 (Rleb_true_iff _ _)) by (simpl; lra).
    reflexivity. }
  eexists. split; [exact H1|split; [exact H2|]].
  destruct (updatePoseGraphObsConstraints_non_successive tt (example_config true true)
              GetTransform_odom _ _ _ _ H1 H2)
    as (pn & sel & _ & Hp & Hg & _ & _ & Hcount & Hmiss).
  cbn in Hp. injection Hp as <-.
  exists (example_node 3), sel. split; [reflexivity|split; [exact Hg|]].
  assert (Hin : In 0%nat (map ns_index sel)).
  { destruct (in_dec Nat.eq_dec 0%nat (map ns_index sel)) as [H|H]; [exact H|exfalso].
    assert (Hd : node_dist (example_node 0) (example_node 3)
                 <= maximum_node_dis_scan_comparison (example_config true true))
      by (unfold node_dist; simpl; rewrite norm_on_axis, Rabs_left; lra).
    assert (Hs : ScanMatch tt (example_config true true) GetTransform_odom
                   (example_node 0) (example_node 3) <> None)
      by (unfold ScanMatch; simpl; discriminate).
    assert (Hf : filter (fun x => Nat.ltb (ns_index x) 0) sel = []).
    { clear. induction sel as [|x sel IH]; [reflexivity|]. simpl. exact IH. }
    pose proof (Hmiss 0%nat (example_node 0) ltac:(simpl; lia) eq_refl Hd Hs H) as Hm.
    rewrite Hf in Hm. simpl in Hm. lra. }
  destruct Hcount as [->|Hc]; [destruct Hin|].
  destruct sel as [|x [|y sel]]; [destruct Hin| |].
  - simpl in Hin |- *. destruct Hin as [<-|[]]. reflexivity.
  - exfalso. cbn [length] in Hc. rewrite Nat.sub_succ, Nat.sub_0_r, S_INR in Hc.
    pose proof (pos_INR (length sel)). simpl in Hc. lra.
Defined.

(** C6: node [n - 2] is no candidate.  For new node 3, node 1 lies within
    the distance threshold of the predecessor 2 and its match converges,
    yet no factor from 1 to 2 is added (node 0 is out of range). *)
Lemma non_successive_skips_second_predecessor_counterexample :
  let nodes := [mkPgNode (mkPose 0 (10, 0)) 0 []; example_node 1; example_node 2] in
  exists graph',
    updatePoseGraphObsConstraints tt (example_config true true) GetTransform_odom
      nodes [] (example_node 3) = Some graph'
    /\ (forall m c, ~ In (BetweenFactor 1 2 m c) graph')
    /\ node_dist (example_node 1) (example_node 2)
       <= maximum_node_dis_scan_comparison (example_config true true)
    /\ ScanMatch tt (example_config true true) GetTransform_odom (example_node 1) (example_node 2)
       <> None.
Proof.
  cbn zeta. eexists. split; [|split; [|split]].
  - unfold updatePoseGraphObsConstraints.
    cbn -[Rleb norm transformPoseFromMap2Target].
    rewrite (proj2 (Rleb_false_iff _ _)) by (simpl; lra).
    rewrite (proj2 (Rleb_false_iff _ _)).
    + reflexivity.
    + rewrite norm_on_axis. simpl. rewrite Rabs_right; lra.
  - simpl. intros m c [H|[]]. discriminate.
  - unfold node_dist. simpl. rewrite norm_on_axis, Rabs_left; lra.
  - unfold ScanMatch. simpl. discriminate.
Qed.

(** C8: the theorem at node 1 after node 0, with a matcher that never
    converges. *)
Lemma non_converged_match_adds_no_constraint_witness :
  let nodes := [example_node 1; example_node 0] in
  (forall x y, In x nodes -> In y nodes -> node_number x = node_number y -> x = y)
  /\ In (example_node 0) nodes /\ In (example_node 1) nodes
  /\ updatePoseGraphObsConstraints tt (example_config true true) GetTransform_diverging
       [example_node 0] [] (example_node 1) = Some []
  /\ ScanMatch tt (example_config true true) GetTransform_diverging
       (example_node 0) (example_node 1) = None.
Proof.
  cbn zeta.
  assert (Hu : forall x y, In x [example_node 1; example_node 0] ->
                 In y [example_node 1; example_node 0] -> node_number x = node_number y -> x = y).
  { intros x y Hx Hy E. destruct Hx as [<-|[<-|[]]]; destruct Hy as [<-|[<-|[]]];
      try reflexivity; discriminate. }
  assert (Ha : In (example_node 0) [example_node 1; example_node 0]) by (right; left; reflexivity).
  assert (Hb : In (example_node 1) [example_node 1; example_node 0]) by (left; reflexivity).
  assert (H : updatePoseGraphObsConstraints tt (example_config true true) GetTransform_diverging
                [example_node 0] [] (example_node 1) = Some []) by reflexivity.
  split; [exact Hu|split; [exact Ha|split; [exact Hb|split; [exact H|]]]].
  exact (proj1 (non_converged_match_adds_no_constraint tt (example_config true true)
                  GetTransform_diverging [example_node 0] [] [] (example_node 1)
                  (example_node 0) (example_node 1) Hu Ha Hb eq_refl H)).
Defined.

(** C9: the theorem from an offline process holding nodes 0 and 1: after
    the pass, a scan, an odometry update and a second stop command leave
    the nodes as the pass left them. *)
Lemma stop_frontend_one_shot_witness :
  let p := mkProcess example_state2 false in
  let es := [example_scan; OdometryCallback (5, 0) 1; StopSlamCallback] in
  exists p1 p2,
    stop_frontend tt (example_config false false) GetTransform_odom calculateEstimate_origin p
    = Some p1
    /\ map node_number (pg_nodes_ (slam_ p1)) = [0; 1]%nat
    /\ run tt (example_config false false) GetTransform_odom calculateEstimate_origin p1 es
       = Some p2
    /\ pg_nodes_ (slam_ p2) = pg_nodes_ (slam_ p1).
Proof.
  cbn zeta.
  eassert (H1 : stop_frontend tt (example_config false false) GetTransform_odom
                  calculateEstimate_origin (mkProcess example_state2 false) = Some _)
    by reflexivity.
  match type of H1 with
  | _ = Some ?q1 =>
      eassert (H2 : run tt (example_config false false) GetTransform_odom calculateEstimate_origin
                      q1 [example_scan; OdometryCallback (5, 0) 1; StopSlamCallback] = Some _)
        by reflexivity
  end.
  do 2 eexists. split; [exact H1|split; [reflexivity|split; [exact H2|]]].
  exact (proj1 (stop_frontend_one_shot tt (example_config false false) GetTransform_odom
                  calculateEstimate_origin _ _ H1 _ _ H2)).
Defined.

(** * Further properties of the front end *)

(** ** Angles and rotations *)

Lemma PI2_pos : 0 < 2 * PI.
Proof. pose proof PI_RGT_0. lra. Qed.

Lemma AngleMod_range (a : R) : - PI < AngleMod a <= PI.
Proof.
  unfold AngleMod. pose proof PI_RGT_0 as Hpi.
  set (q := (PI - a) / (2 * PI)).
  assert (Hq : q * (2 * PI) = PI - a) by (unfold q; field; lra).
  pose proof (Int_part_le q) as H1. pose proof (Int_part_lt q) as H2.
  set (k := IZR (Int_part q)) in *.
  assert (E1 : 2 * PI * k <= 2 * PI * q) by (apply Rmult_le_compat_l; lra).
  assert (E2 : 2 * PI * (q - 1) < 2 * PI * k) by (apply Rmult_lt_compat_l; lra).
  split; nra.
Qed.

Lemma AngleMod_id (x : R) : - PI < x <= PI -> AngleMod x = x.
Proof.
  intros Hx. unfold AngleMod. pose proof PI_RGT_0 as Hpi.
  replace (Int_part ((PI - x) / (2 * PI))) with 0%Z.
  - simpl. ring.
  - apply Int_part_spec. simpl.
    assert (Hq : (PI - x) / (2 * PI) * (2 * PI) = PI - x) by (field; lra).
    set (q := (PI - x) / (2 * PI)) in *. split; nra.
Qed.

Lemma AngleMod_idem (a : R) : AngleMod (AngleMod a) = AngleMod a.
Proof. apply AngleMod_id, AngleMod_range. Qed.

Lemma Int_part_sub_Z (r : R) (k : Z) : Int_part (r - IZR k) = (Int_part r - k)%Z.
Proof.
  symmetry. apply Int_part_spec. rewrite minus_IZR.
  pose proof (Int_part_le r). pose proof (Int_part_lt r). lra.
Qed.

Lemma AngleMod_shift_2PI (a : R) (k : Z) : AngleMod (a + 2 * PI * IZR k) = AngleMod a.
Proof.
  unfold AngleMod. pose proof PI_RGT_0 as Hpi.
  replace ((PI - (a + 2 * PI * IZR k)) / (2 * PI)) with ((PI - a) / (2 * PI) - IZR k)
    by (field; lra).
  rewrite Int_part_sub_Z, minus_IZR. ring.
Qed.

(** two wrapped angles that differ by a multiple of 2*pi agree *)
Lemma AngleMod_congr (a b : R) (k : Z) : a = b + 2 * PI * IZR k -> AngleMod a = AngleMod b.
Proof. intros ->. apply AngleMod_shift_2PI. Qed.

Lemma rotate_rotate_neg (theta : R) (v : R * R) : rotate theta (rotate (- theta) v) = v.
Proof.
  rewrite <- (Ropp_involutive theta) at 1. apply rotate_neg_rotate.
Qed.

Lemma norm_rotate (theta : R) (v : R * R) : norm (rotate theta v) = norm v.
Proof.
  destruct v as [x y]. unfold norm, rotate; simpl. f_equal.
  pose proof (sin2_cos2 theta) as H. unfold Rsqr in H.
  transitivity ((x * x + y * y) * (sin theta * sin theta + cos theta * cos theta)); [ring|].
  rewrite H. ring.
Qed.

(** Transforming [p] into the frame of [r] and back gives [p]'s position
    and its heading wrapped. *)
Lemma transform_map2target_src2map (p r : Pose2Df) :
  transformPoseFromSrc2Map (transformPoseFromMap2Target p r) r
  = mkPose (AngleMod (angle p)) (translation p).
Proof.
  unfold transformPoseFromSrc2Map, transformPoseFromMap2Target. simpl.
  rewrite rotate_rotate_neg. f_equal.
  - destruct (AngleMod_shift (angle p - angle r)) as [k Hk]. rewrite Hk.
    apply (AngleMod_congr _ _ k). ring.
  - destruct (translation p), (translation r). unfold vadd, vsub. simpl. f_equal; ring.
Qed.

(** ** The reported pose *)

Lemma GetPose_snoc {Cov : Type} (s : SLAM Cov) (nodes : list PgNode) (back : PgNode) :
  pg_nodes_ s = nodes ++ [back] ->
  GetPose s =
    let pos_map :=
      transformPoseFromSrc2Map
        (transformPoseFromMap2Target (mkPose (prev_odom_angle_ s) (prev_odom_loc_ s))
           (last_node_odom_pose_ s)) (estimated_pose back) in
    (translation pos_map, angle pos_map).
Proof.
  intros H. unfold GetPose. rewrite H.
  destruct nodes as [|n0 nodes]; [reflexivity|].
  cbn [app]. rewrite app_comm_cons, last_last. reflexivity.
Qed.

Lemma GetPose_at_last_node_aux {Cov : Type} (s : SLAM Cov) (nodes : list PgNode) (back : PgNode) :
  pg_nodes_ s = nodes ++ [back] ->
  last_node_odom_pose_ s = mkPose (prev_odom_angle_ s) (prev_odom_loc_ s) ->
  GetPose s = (translation (estimated_pose back), AngleMod (angle (estimated_pose back))).
Proof.
  intros Hn Ho. rewrite (GetPose_snoc s nodes back Hn), Ho. cbn zeta.
  unfold transformPoseFromSrc2Map, transformPoseFromMap2Target. simpl.
  rewrite Rminus_diag, AngleMod_0, Rplus_0_r. f_equal.
  destruct (translation (estimated_pose back)), (prev_odom_loc_ s).
  unfold vadd, vsub, rotate. simpl. f_equal; ring.
Qed.

(** [GetPose] while the odometry is where it was when the last node was
    created (right after the node is added): the last node's position and
    its heading wrapped to (-pi, pi]. *)
Theorem GetPose_at_last_node {Cov : Type} (s : SLAM Cov) (nodes : list PgNode) (back : PgNode) :
  pg_nodes_ s = nodes ++ [back] ->
  last_node_odom_pose_ s = mkPose (prev_odom_angle_ s) (prev_odom_loc_ s) ->
  GetPose s = (translation (estimated_pose back), AngleMod (angle (estimated_pose back))).
Proof. apply GetPose_at_last_node_aux. Qed.


(** [runCSM]: placing its relative pose back in the base node's frame
    gives the match node's position and wrapped heading, and its
    covariance is the identity. *)
Theorem runCSM_recovers_match_pose (base_node match_node : PgNode) :
  transformPoseFromSrc2Map (fst (runCSM base_node match_node)) (estimated_pose base_node)
  = mkPose (AngleMod (angle (estimated_pose match_node))) (translation (estimated_pose match_node))
  /\ snd (runCSM base_node match_node) = [[1; 0; 0]; [0; 1; 0]; [0; 0; 1]].
Proof.
  split; [|reflexivity]. unfold runCSM. simpl. apply transform_map2target_src2map.
Qed.

Section Admission.
Context {Cov : Type}.
Variable cov_identity : Cov.
Variable cfg : Config.
Variable GetTransform : list point -> list point -> Trans -> bool * (Trans * Cov).
Variable calculateEstimate : ISAM2 Cov -> nat -> option Pose2Df.

Local Abbreviation ScanMatch := (ScanMatch cov_identity cfg GetTransform).
Local Abbreviation updatePoseGraph := (updatePoseGraph cov_identity cfg GetTransform calculateEstimate).

(** With [fix_mean] set, a converged [ScanMatch] measures the odometry
    guess: its relative pose, placed back in the base node's frame, gives
    the match node's position and wrapped heading, whatever the matcher
    returned; with [fix_covariance] set its covariance is the fixed
    diagonal one. *)
Theorem ScanMatch_fix_mean_recovers_match_pose (base_node match_node : PgNode)
    (rel : Pose2Df) (cov : Cov) :
  fix_mean cfg = true ->
  ScanMatch base_node match_node = Some (rel, cov) ->
  transformPoseFromSrc2Map rel (estimated_pose base_node)
  = mkPose (AngleMod (angle (estimated_pose match_node))) (translation (estimated_pose match_node))
  /\ (fix_covariance cfg = true -> cov = cov_identity).
Proof.
  intros Hfix. unfold ScanMatch.
  destruct (GetTransform _ _ _) as [[|] transform]; simpl; [|discriminate].
  rewrite Hfix. intros H. injection H as <- <-. split.
  - apply transform_map2target_src2map.
  - intros ->. reflexivity.
Qed.

(** In offline mode, admitting a node after the first one appends node
    [n] (the number of nodes so far) at the pose [GetPose] reported just
    before, leaves the graph and the solver untouched, and [GetPose]
    reports the same pose afterwards. *)
Theorem updatePoseGraph_offline_appends_at_GetPose (s : SLAM Cov) (nodes : list PgNode)
    (back : PgNode) :
  runOnline cfg = false -> first_scan s = false -> pg_nodes_ s = nodes ++ [back] ->
  exists s',
    updatePoseGraph s = Some s'
    /\ pg_nodes_ s' = pg_nodes_ s ++
         [mkPgNode (mkPose (snd (GetPose s)) (fst (GetPose s))) (length (pg_nodes_ s))
            (recent_point_cloud_ s)]
    /\ graph_ s' = graph_ s /\ isam_ s' = isam_ s
    /\ GetPose s' = GetPose s.
Proof.
  intros Hoff Hfirst Hn. unfold updatePoseGraph. rewrite Hfirst, Hn, map_app. cbn [map].
  rewrite last_last, Hoff. eexists. split; [reflexivity|].
  rewrite (GetPose_snoc s nodes back Hn). cbn zeta.
  split; [reflexivity|split; [reflexivity|split; [reflexivity|]]].
  erewrite GetPose_at_last_node_aux; [|reflexivity|reflexivity]. simpl.
  rewrite AngleMod_idem. reflexivity.
Qed.
End Admission.

(** ** The map *)

(** [GetMap] places every point of every node's cloud, and nothing else:
    the map has as many points as the clouds together, and a finite point
    [(x, y)] of a node's cloud appears rotated by the node's heading and
    moved to its position, at the same distance from that position as
    [(x, y)] from the origin. *)
Theorem GetMap_places_clouds {Cov : Type} (s : SLAM Cov) :
  length (GetMap s) = list_sum (map (fun node => length (point_cloud node)) (pg_nodes_ s))
  /\ forall node x y, In node (pg_nodes_ s) -> In (Fin x, Fin y) (point_cloud node) ->
     let q := vadd (translation (estimated_pose node)) (rotate (angle (estimated_pose node)) (x, y)) in
     In (Fin (fst q), Fin (snd q)) (GetMap s)
     /\ norm (vsub q (translation (estimated_pose node))) = norm (x, y).
Proof.
  unfold GetMap. split.
  - rewrite length_flat_map. f_equal. apply map_ext. intros node. apply length_map.
  - intros node x y Hn Hp. cbn zeta. split.
    + apply in_flat_map. exists node. split; [exact Hn|].
      apply in_map_iff. exists (Fin x, Fin y). split; [|exact Hp].
      unfold map_point, xrotate, vadd, rotate. simpl. f_equal; f_equal; ring.
    + rewrite <- (norm_rotate (angle (estimated_pose node)) (x, y)).
      destruct (translation (estimated_pose node)), (rotate (angle (estimated_pose node)) (x, y)).
      unfold vadd, vsub. simpl. f_equal. f_equal; ring.
Qed.

(** ** Invariants of a run *)

Section Invariants.
Context {Cov : Type}.
Variable cov_identity : Cov.
Variable cfg : Config.
Variable GetTransform : list point -> list point -> Trans -> bool * (Trans * Cov).
Variable calculateEstimate : ISAM2 Cov -> nat -> option Pose2Df.

Local Abbreviation ScanMatch := (ScanMatch cov_identity cfg GetTransform).
Local Abbreviation updatePoseGraphObsConstraints :=
  (updatePoseGraphObsConstraints cov_identity cfg GetTransform).
Local Abbreviation updatePoseGraph := (updatePoseGraph cov_identity cfg GetTransform calculateEstimate).
Local Abbreviation ObserveLaser := (ObserveLaser cov_identity cfg GetTransform calculateEstimate).
Local Abbreviation offline_constraints := (offline_constraints cov_identity cfg GetTransform).
Local Abbreviation stop_frontend_of := (stop_frontend cov_identity cfg GetTransform calculateEstimate).
Local Abbreviation step := (step cov_identity cfg GetTransform calculateEstimate).
Local Abbreviation run := (run cov_identity cfg GetTransform calculateEstimate).

(** node [i] of the list has number [i] *)
Definition numbered (nodes : list PgNode) : Prop :=
  map node_number nodes = seq 0 (length nodes).

(** a factor of a graph over [n] nodes refers to nodes that exist: a prior
    only on node 0, a between factor from a lower to a higher number *)
Definition key_ok (n : nat) (f : Factor Cov) : Prop :=
  match f with
  | PriorFactor k _ _ => k = 0%nat /\ (0 < n)%nat
  | BetweenFactor a b _ _ => (a < b < n)%nat
  end.

Definition between_ok (n : nat) (f : Factor Cov) : Prop :=
  exists a b m c, f = BetweenFactor a b m c /\ (a < b < n)%nat.

(** the members a step of the front end may leave alone *)
Definition frame (s s' : SLAM Cov) : Prop :=
  pg_nodes_ s' = pg_nodes_ s /\ graph_ s' = graph_ s /\ isam_ s' = isam_ s
  /\ first_scan s' = first_scan s.

Definition is_stop (e : Event) : bool :=
  match e with StopSlamCallback => true | _ => false end.


Lemma numbered_nth (nodes : list PgNode) (i : nat) (x : PgNode) :
  numbered nodes -> nth_error nodes i = Some x -> node_number x = i.
Proof.
  intros H E.
  assert (E' : nth_error (map node_number nodes) i = Some (node_number x))
    by (rewrite nth_error_map, E; reflexivity).
  rewrite H, nth_error_seq in E'.
  destruct (Nat.ltb i (length nodes)); [|discriminate]. injection E' as E'. lia.
Qed.

Lemma numbered_map (l l' : list PgNode) :
  map node_number l' = map node_number l -> numbered l -> numbered l'.
Proof.
  unfold numbered. intros E H. rewrite E, H.
  rewrite <- (length_map node_number l), <- (length_map node_number l'), E. reflexivity.
Qed.

Lemma numbered_snoc (l : list PgNode) (x : PgNode) :
  numbered l -> node_number x = length l -> numbered (l ++ [x]).
Proof.
  unfold numbered. intros H Hx. rewrite map_app, H, length_app, Nat.add_1_r, seq_S. simpl.
  rewrite Hx. reflexivity.
Qed.

Lemma key_ok_mono (n n' : nat) (f : Factor Cov) : (n <= n')%nat -> key_ok n f -> key_ok n' f.
Proof. destruct f; simpl; lia. Qed.

Lemma between_key_ok (n : nat) (f : Factor Cov) : between_ok n f -> key_ok n f.
Proof. intros (a & b & m & c & -> & H). exact H. Qed.

Lemma update_nodes_numbers (isam : ISAM2 Cov) :
  forall l l', update_nodes calculateEstimate isam l = Some l' ->
  map node_number l' = map node_number l.
Proof.
  induction l as [|x l IH]; intros l' H; simpl in H.
  - injection H as <-. reflexivity.
  - destruct (calculateEstimate isam (node_number x)); [|discriminate].
    destruct (update_nodes calculateEstimate isam l) as [l1|] eqn:E; [|discriminate].
    simpl in H. injection H as <-. simpl. f_equal. exact (IH l1 eq_refl).
Qed.

Lemma optimizePoseGraph_spec (s s' : SLAM Cov) (v : Values) :
  optimizePoseGraph calculateEstimate s v = Some s' ->
  map node_number (pg_nodes_ s') = map node_number (pg_nodes_ s)
  /\ graph_ s' = graph_ s /\ isam_ s' = isam_ s ++ [(graph_ s, v)]
  /\ first_scan s' = first_scan s.
Proof.
  unfold optimizePoseGraph.
  destruct (update_nodes _ _ _) as [nodes|] eqn:E; [|discriminate].
  intros H. injection H as <-. simpl. apply update_nodes_numbers in E. auto.
Qed.

Lemma updatePoseGraphObsConstraints_keys (nodes : list PgNode) (graph graph' : list (Factor Cov))
    (new_node : PgNode) :
  numbered nodes ->
  updatePoseGraphObsConstraints nodes graph new_node = Some graph' ->
  exists added, graph' = graph ++ added
    /\ Forall (fun f => exists a b m c, f = BetweenFactor a b m c
                        /\ (a < b <= node_number new_node)%nat) added.
Proof.
  intros Hnum. unfold updatePoseGraphObsConstraints.
  destruct (node_number new_node) as [|pred] eqn:En; [discriminate|].
  destruct (nth_error nodes pred) as [preceding_node|] eqn:Ep; [|discriminate].
  pose proof (numbered_nth nodes pred preceding_node Hnum Ep) as Hpn.
  assert (Hsucc : exists added0,
             match ScanMatch preceding_node new_node with
             | Some off => addObservationConstraint graph (node_number preceding_node) (S pred) off
             | None => graph
             end = graph ++ added0
             /\ Forall (fun f => exists a b m c, f = BetweenFactor a b m c
                                 /\ (a < b <= S pred)%nat) added0).
  { destruct (ScanMatch preceding_node new_node) as [[m c]|].
    - eexists. split; [reflexivity|]. repeat constructor.
      exists (node_number preceding_node), (S pred), m, c. split; [reflexivity|lia].
    - exists []. rewrite app_nil_r. split; [reflexivity|constructor]. }
  destruct Hsucc as (added0 & Hg0 & Hadd0). rewrite Hg0.
  destruct (non_successive_scan_constraints cfg && Nat.ltb 2 (S pred)).
  - intros H. apply non_successive_loop_spec in H as (sel & Hg & Hin & _).
    exists (added0 ++ map (ns_factor preceding_node) sel).
    split; [rewrite Hg, app_assoc; reflexivity|].
    apply Forall_app. split; [exact Hadd0|].
    apply Forall_forall. intros f Hf.
    apply in_map_iff in Hf as ([[i node] off] & <- & Hsel).
    destruct (Hin _ _ _ Hsel) as (Hi & Hn & _).
    pose proof (numbered_nth nodes i node Hnum Hn) as Hin'.
    exists (node_number node), (node_number preceding_node), (fst off), (snd off).
    split; [reflexivity|lia].
  - intros H. injection H as <-. exists added0. auto.
Qed.

Lemma offline_constraints_between (nodes : list PgNode) :
  numbered nodes ->
  forall todo graph graph',
  Forall (fun i => 0 < i < length nodes)%nat todo ->
  offline_constraints nodes todo graph = Some graph' ->
  exists added, graph' = graph ++ added /\ Forall (between_ok (length nodes)) added.
Proof.
  intros Hnum. induction todo as [|i todo IH]; intros graph graph' Hall H; simpl in H.
  - injection H as <-. exists []. rewrite app_nil_r. auto.
  - inversion Hall as [|? ? Hi Hall']; subst.
    destruct (nth_error nodes i) as [node|] eqn:En; [|discriminate].
    replace (Nat.eqb i 0) with false in H by (symmetry; apply Nat.eqb_neq; lia).
    destruct (updatePoseGraphObsConstraints nodes graph node) as [g|] eqn:Eu; [|discriminate].
    apply updatePoseGraphObsConstraints_keys in Eu as (a1 & Hg1 & Ha1); [|exact Hnum].
    destruct (IH g graph' Hall' H) as (a2 & Hg2 & Ha2).
    exists (a1 ++ a2). split; [rewrite Hg2, Hg1, app_assoc; reflexivity|].
    apply Forall_app. split; [|exact Ha2].
    rewrite (numbered_nth nodes i node Hnum En) in Ha1.
    eapply Forall_impl; [|exact Ha1].
    intros f (a & b & m & c & -> & Hab). exists a, b, m, c. split; [reflexivity|lia].
Qed.

Lemma offline_constraints_all (nodes : list PgNode) (graph : list (Factor Cov)) :
  numbered nodes -> nodes <> [] ->
  offline_constraints nodes (seq 0 (length nodes)) [] = Some graph ->
  exists rest, graph = init_prior cfg 0 :: rest /\ Forall (between_ok (length nodes)) rest.
Proof.
  intros Hnum Hne H. destruct nodes as [|n0 nodes']; [contradiction|].
  cbn [length seq offline_constraints nth_error Nat.eqb app] in H.
  rewrite (numbered_nth (n0 :: nodes') 0 n0 Hnum eq_refl) in H.
  apply offline_constraints_between in H as (rest & Hg & Hrest); [|exact Hnum|].
  - exists rest. split; [exact Hg|exact Hrest].
  - apply Forall_forall. intros i Hi. apply in_seq in Hi. simpl. lia.
Qed.

Lemma ObserveLaser_cases (s s' : SLAM Cov) (ranges : list R) (rmin rmax amin amax : R) :
  ObserveLaser s ranges rmin rmax amin amax = Some s' ->
  frame s s' \/ exists s0, frame s s0 /\ updatePoseGraph s0 = Some s'.
Proof.
  unfold ObserveLaser, shouldAddPgNode.
  destruct (stopSlamCmdRecv_ s); simpl.
  - intros H. injection H as <-. left. repeat split.
  - destruct (_ || _); simpl.
    + destruct (convertLidar2PointCloud _ _ _ _ _) as [cloud|]; [|discriminate].
      intros H. right. eexists. split; [|exact H]. repeat split.
    + intros H. injection H as <-. left. repeat split.
Qed.

Lemma updatePoseGraph_shape (s s' : SLAM Cov) :
  updatePoseGraph s = Some s' ->
  exists new_node,
    node_number new_node = length (pg_nodes_ s)
    /\ map node_number (pg_nodes_ s') = map node_number (pg_nodes_ s ++ [new_node])
    /\ first_scan s' = false
    /\ (runOnline cfg = false ->
        pg_nodes_ s' = pg_nodes_ s ++ [new_node] /\ graph_ s' = graph_ s /\ isam_ s' = isam_ s)
    /\ (runOnline cfg = true ->
        exists added,
          graph_ s' = graph_ s ++ added
          /\ isam_ s' = isam_ s ++ [(graph_ s', [(length (pg_nodes_ s), estimated_pose new_node)])]
          /\ ((first_scan s = true /\ added = [init_prior cfg (length (pg_nodes_ s))])
              \/ updatePoseGraphObsConstraints (pg_nodes_ s) (graph_ s) new_node
                 = Some (graph_ s ++ added))).
Proof.
  unfold updatePoseGraph. intros H. destruct (first_scan s) eqn:Ef.
  - cbn zeta in H.
    match type of H with context [mkPgNode ?p (length (pg_nodes_ s)) ?c] =>
      exists (mkPgNode p (length (pg_nodes_ s)) c) end.
    split; [reflexivity|].
    destruct (runOnline cfg) eqn:Eon.
    + apply optimizePoseGraph_spec in H as (Hn & Hg & Hi & Hf). simpl in *.
      split; [exact Hn|split; [exact Hf|split; [intros; discriminate|]]].
      intros _. eexists. split; [exact Hg|]. split; [rewrite Hi, Hg; reflexivity|].
      left. split; reflexivity.
    + injection H as <-. simpl.
      repeat split; try reflexivity. intros; discriminate.
  - destruct (last (map Some (pg_nodes_ s)) None) as [back|]; [|discriminate].
    cbn zeta in H. destruct (runOnline cfg) eqn:Eon.
    + destruct (updatePoseGraphObsConstraints _ _ _) as [graph|] eqn:Eu; [|discriminate].
      match type of Eu with context [mkPgNode ?p (length (pg_nodes_ s)) ?c] =>
        exists (mkPgNode p (length (pg_nodes_ s)) c) end.
      apply optimizePoseGraph_spec in H as (Hn & Hg & Hi & Hf). simpl in *.
      split; [reflexivity|].
      split; [exact Hn|split; [exact Hf|split; [intros; discriminate|]]].
      intros _. pose proof Eu as Eu'.
      apply updatePoseGraphObsConstraints_added in Eu' as (added & Ha & _).
      exists added. rewrite Hg, Hi. split; [exact Ha|split; [reflexivity|]].
      right. rewrite <- Ha. exact Eu.
    + match type of H with context [mkPgNode ?p (length (pg_nodes_ s)) ?c] =>
        exists (mkPgNode p (length (pg_nodes_ s)) c) end.
      injection H as <-. simpl.
      repeat split; try reflexivity. intros; discriminate.
Qed.

Lemma stop_frontend_cases (p p1 : Process Cov) :
  stop_frontend_of p = Some p1 ->
  (frame (slam_ p) (slam_ p1) /\ run_before p = true)
  \/ (run_before p = false
      /\ offline_constraints (pg_nodes_ (slam_ p)) (seq 0 (length (pg_nodes_ (slam_ p)))) []
         = Some (graph_ (slam_ p1))
      /\ map node_number (pg_nodes_ (slam_ p1)) = map node_number (pg_nodes_ (slam_ p))
      /\ first_scan (slam_ p1) = first_scan (slam_ p)
      /\ isam_ (slam_ p1)
         = [(graph_ (slam_ p1),
             map (fun n => (node_number n, estimated_pose n)) (pg_nodes_ (slam_ p)))]
      /\ run_before p1 = true /\ stopSlamCmdRecv_ (slam_ p1) = true).
Proof.
  unfold stop_frontend, offlineOptimizePoseGraph. simpl.
  destruct (run_before p) eqn:Erb.
  - intros H. injection H as <-. left. split; [repeat split|reflexivity].
  - destruct (offline_constraints _ _ _) as [graph|] eqn:Eo; [|discriminate].
    destruct (update_nodes _ _ _) as [nodes|] eqn:Eu; [|discriminate].
    intros H. injection H as <-. right. simpl.
    apply update_nodes_numbers in Eu. repeat split; auto.
Qed.

(** the invariant of the members of [SLAM] along a run *)
Definition Inv (s : SLAM Cov) : Prop :=
  numbered (pg_nodes_ s)
  /\ (first_scan s = true <-> pg_nodes_ s = [])
  /\ Forall (key_ok (length (pg_nodes_ s))) (graph_ s).

Lemma Inv_init : Inv SLAM_init.
Proof. repeat split; auto. Qed.

Lemma Inv_frame (s s' : SLAM Cov) : frame s s' -> Inv s -> Inv s'.
Proof.
  intros (Hn & Hg & Hi & Hf). unfold Inv. rewrite Hn, Hg, Hf. exact (fun H => H).
Qed.

Lemma length_map_eq (l l' : list PgNode) :
  map node_number l' = map node_number l -> length l' = length l.
Proof.
  intros E. rewrite <- (length_map node_number l), <- (length_map node_number l'), E.
  reflexivity.
Qed.

Lemma updatePoseGraph_Inv (s s' : SLAM Cov) : Inv s -> updatePoseGraph s = Some s' -> Inv s'.
Proof.
  intros (Hnum & Hfirst & Hkeys) H.
  destruct (updatePoseGraph_shape s s' H) as (new & Hnew & Hmap & Hf' & Hoff & Hon).
  assert (Hlen : length (pg_nodes_ s') = S (length (pg_nodes_ s))).
  { rewrite (length_map_eq _ _ Hmap), length_app. simpl. lia. }
  split; [|split].
  - apply (numbered_map (pg_nodes_ s ++ [new])); [exact Hmap|].
    apply numbered_snoc; assumption.
  - rewrite Hf'. split; [discriminate|]. intros E. rewrite E in Hlen. discriminate.
  - rewrite Hlen. destruct (runOnline cfg) eqn:Eon.
    + destruct (Hon eq_refl) as (added & Hg & _ & Hadd). rewrite Hg.
      apply Forall_app. split.
      * eapply Forall_impl; [|exact Hkeys]. intros f. apply key_ok_mono. lia.
      * destruct Hadd as [[Hf Ha] | Hu].
        -- rewrite Ha. apply Hfirst in Hf. rewrite Hf. repeat constructor; simpl; lia.
        -- apply updatePoseGraphObsConstraints_keys in Hu as (added' & Ha & Hall); [|exact Hnum].
           apply app_inv_head in Ha. subst added'.
           eapply Forall_impl; [|exact Hall].
           intros f (a & b & m & c & -> & Hab). simpl. lia.
    + destruct (Hoff eq_refl) as (_ & Hg & _). rewrite Hg.
      eapply Forall_impl; [|exact Hkeys]. intros f. apply key_ok_mono. lia.
Qed.

Lemma step_Inv (p p' : Process Cov) (e : Event) :
  Inv (slam_ p) -> step p e = Some p' -> Inv (slam_ p').
Proof.
  intros HI. destruct e as [ranges rmin rmax amin amax|loc a|]; simpl.
  - destruct (ObserveLaser _ _ _ _ _ _) as [s'|] eqn:E; [|discriminate].
    intros H. injection H as <-. simpl.
    destruct (ObserveLaser_cases _ _ _ _ _ _ _ E) as [Hfr | (s0 & Hfr & Hu)].
    + exact (Inv_frame _ _ Hfr HI).
    + exact (updatePoseGraph_Inv s0 s' (Inv_frame _ _ Hfr HI) Hu).
  - intros H. injection H as <-. exact HI.
  - intros H. destruct (stop_frontend_cases p p' H) as [[Hfr _] | (_ & Ho & Hmap & Hf & _)].
    + exact (Inv_frame _ _ Hfr HI).
    + destruct HI as (Hnum & Hfirst & Hkeys).
      assert (Hlen := length_map_eq _ _ Hmap).
      split; [|split].
      * exact (numbered_map _ _ Hmap Hnum).
      * rewrite Hf, Hfirst. split; intros E.
        -- rewrite E in Hlen. destruct (pg_nodes_ (slam_ p')); [reflexivity|discriminate].
        -- rewrite E in Hlen. destruct (pg_nodes_ (slam_ p)); [reflexivity|discriminate].
      * rewrite Hlen. destruct (pg_nodes_ (slam_ p)) as [|n0 ns] eqn:En.
        -- simpl in Ho. injection Ho as <-. constructor.
        -- apply offline_constraints_all in Ho as (rest & -> & Hrest); [|exact Hnum|discriminate].
           constructor; [simpl; lia|].
           eapply Forall_impl; [|exact Hrest]. apply between_key_ok.
Qed.

Lemma run_Inv (es : list Event) :
  forall p p', Inv (slam_ p) -> run p es = Some p' -> Inv (slam_ p').
Proof.
  induction es as [|e es IH]; intros p p' HI H; simpl in H.
  - injection H as <-. exact HI.
  - destruct (step p e) as [p1|] eqn:E; [|discriminate].
    exact (IH p1 p' (step_Inv p p1 e HI E) H).
Qed.

(** Along every run of the program, node [i] of [pg_nodes_] has number
    [i], and [first_scan] is set exactly while there is no node. *)
Theorem run_nodes_numbered (es : list Event) (p : Process Cov) :
  run Process_init es = Some p ->
  map node_number (pg_nodes_ (slam_ p)) = seq 0 (length (pg_nodes_ (slam_ p)))
  /\ (first_scan (slam_ p) = true <-> pg_nodes_ (slam_ p) = []).
Proof.
  intros H. destruct (run_Inv es Process_init p Inv_init H) as (Hn & Hf & _).
  split; [exact Hn|exact Hf].
Qed.

(** Along every run of the program, in either mode and before or after the
    offline pass, every factor of [graph_] refers to existing nodes: a
    prior is on node 0, and a between factor goes from a lower to a higher
    node number, both below the number of nodes. *)
Theorem run_graph_keys_exist (es : list Event) (p : Process Cov) :
  run Process_init es = Some p ->
  Forall (key_ok (length (pg_nodes_ (slam_ p)))) (graph_ (slam_ p)).
Proof.
  intros H. destruct (run_Inv es Process_init p Inv_init H) as (_ & _ & Hk). exact Hk.
Qed.



(** the solver's updates: the keys of the initial values each carries *)
Definition update_keys (isam : ISAM2 Cov) : list (list nat) :=
  map (fun u => map fst (snd u)) isam.

Lemma online_keys_step (p p' : Process Cov) (e : Event) :
  runOnline cfg = true -> is_stop e = false ->
  update_keys (isam_ (slam_ p)) = map (fun k => [k]) (seq 0 (length (pg_nodes_ (slam_ p)))) ->
  step p e = Some p' ->
  update_keys (isam_ (slam_ p')) = map (fun k => [k]) (seq 0 (length (pg_nodes_ (slam_ p')))).
Proof.
  intros Hon Hns HJ. destruct e as [ranges rmin rmax amin amax|loc a|]; simpl; [|
    intros H; injection H as <-; exact HJ | discriminate].
  destruct (ObserveLaser _ _ _ _ _ _) as [s'|] eqn:E; [|discriminate].
  intros H. injection H as <-. simpl.
  destruct (ObserveLaser_cases _ _ _ _ _ _ _ E) as [(Hn & _ & Hi & _) | (s0 & (Hn & _ & Hi & _) & Hu)].
  - rewrite Hn, Hi. exact HJ.
  - destruct (updatePoseGraph_shape s0 s' Hu) as (new & _ & Hmap & _ & _ & Hon').
    destruct (Hon' Hon) as (added & _ & Hi' & _).
    rewrite (length_map_eq _ _ Hmap), length_app, Hi', Hn, Nat.add_1_r, seq_S.
    unfold update_keys in *. rewrite Hi, !map_app. f_equal. exact HJ.
Qed.

Lemma online_keys_run (es : list Event) :
  forall p p', runOnline cfg = true ->
  forallb (fun e => negb (is_stop e)) es = true ->
  update_keys (isam_ (slam_ p)) = map (fun k => [k]) (seq 0 (length (pg_nodes_ (slam_ p)))) ->
  run p es = Some p' ->
  update_keys (isam_ (slam_ p')) = map (fun k => [k]) (seq 0 (length (pg_nodes_ (slam_ p')))).
Proof.
  induction es as [|e es IH]; intros p p' Hon Hns HJ H; simpl in H.
  - injection H as <-. exact HJ.
  - simpl in Hns. apply andb_prop in Hns as [He Hns]. apply negb_true_iff in He.
    destruct (step p e) as [p1|] eqn:E; [|discriminate].
    exact (IH p1 p' Hon Hns (online_keys_step p p1 e Hon He HJ E) H).
Qed.

(** In online mode, until the stop command, the solver receives one update
    per node, in node order, and the [k]-th carries the initial value of
    node [k] and nothing else: every node's initial value is submitted
    exactly once. *)
Theorem online_initial_values_submitted_once (es : list Event) (p : Process Cov) :
  runOnline cfg = true ->
  forallb (fun e => negb (is_stop e)) es = true ->
  run Process_init es = Some p ->
  update_keys (isam_ (slam_ p)) = map (fun k => [k]) (seq 0 (length (pg_nodes_ (slam_ p)))).
Proof.
  intros Hon Hns H. exact (online_keys_run es Process_init p Hon Hns eq_refl H).
Qed.

Lemma offline_step_untouched (p p' : Process Cov) (e : Event) :
  runOnline cfg = false -> is_stop e = false ->
  step p e = Some p' ->
  graph_ (slam_ p') = graph_ (slam_ p) /\ isam_ (slam_ p') = isam_ (slam_ p)
  /\ exists added, pg_nodes_ (slam_ p') = pg_nodes_ (slam_ p) ++ added.
Proof.
  intros Hoff Hns. destruct e as [ranges rmin rmax amin amax|loc a|]; simpl; [|
    intros H; injection H as <-; repeat split; exists []; rewrite app_nil_r; reflexivity
    | discriminate].
  destruct (ObserveLaser _ _ _ _ _ _) as [s'|] eqn:E; [|discriminate].
  intros H. injection H as <-. simpl.
  destruct (ObserveLaser_cases _ _ _ _ _ _ _ E) as [(Hn & Hg & Hi & _) | (s0 & (Hn & Hg & Hi & _) & Hu)].
  - repeat split; auto. exists []. rewrite app_nil_r. exact Hn.
  - destruct (updatePoseGraph_shape s0 s' Hu) as (new & _ & _ & _ & Hoff' & _).
    destruct (Hoff' Hoff) as (Hn' & Hg' & Hi').
    rewrite Hg', Hi', Hg, Hi. repeat split. exists [new]. rewrite Hn', Hn. reflexivity.
Qed.

(** In offline mode, until the stop command, the front end never touches
    the graph or the solver, and it only appends nodes: the poses of the
    nodes already there are never revised. *)
Theorem offline_frontend_never_optimizes (es : list Event) :
  forall p p', runOnline cfg = false ->
  forallb (fun e => negb (is_stop e)) es = true ->
  run p es = Some p' ->
  graph_ (slam_ p') = graph_ (slam_ p) /\ isam_ (slam_ p') = isam_ (slam_ p)
  /\ exists added, pg_nodes_ (slam_ p') = pg_nodes_ (slam_ p) ++ added.
Proof.
  induction es as [|e es IH]; intros p p' Hoff Hns H; simpl in H.
  - injection H as <-. repeat split. exists []. rewrite app_nil_r. reflexivity.
  - simpl in Hns. apply andb_prop in Hns as [He Hns]. apply negb_true_iff in He.
    destruct (step p e) as [p1|] eqn:E; [|discriminate].
    destruct (offline_step_untouched p p1 e Hoff He E) as (Hg1 & Hi1 & a1 & Hn1).
    destruct (IH p1 p' Hoff Hns H) as (Hg2 & Hi2 & a2 & Hn2).
    split; [congruence|split; [congruence|]].
    exists (a1 ++ a2). rewrite Hn2, Hn1, app_assoc. reflexivity.
Qed.
End Invariants.

(** ** The map publisher's rate limit *)

Lemma PublishMap_calls_spaced (calls : list (R * R)) :
  forall t_last, Sorted Rle (flat_map (fun c => [fst c; snd c]) calls) ->
  Sorted (fun a b => a + 0.5 <= b) (t_last :: PublishMap_calls t_last calls).
Proof.
  induction calls as [|[now now'] calls IH]; intros t_last Hs.
  - repeat constructor.
  - simpl in Hs. apply Sorted_inv in Hs as [Hs Hd1]. apply Sorted_inv in Hs as [Hs Hd2].
    inversion Hd1 as [|? ? Hle]; subst.
    cbn [PublishMap_calls]. unfold PublishMap_gate, Rltb.
    destruct (Rlt_dec (now - t_last) 0.5) as [_|Hge].
    + exact (IH t_last Hs).
    + constructor; [exact (IH now' Hs)|]. constructor. lra.
Qed.

(** [PublishMap] publishes at most every half second: for non-decreasing
    clock readings, each publication is recorded at least 0.5 after the
    previous one, and the first at least 0.5 after time 0. *)
Theorem PublishMap_rate_limited (calls : list (R * R)) :
  Sorted Rle (flat_map (fun c => [fst c; snd c]) calls) ->
  Sorted (fun a b => a + 0.5 <= b) (0 :: PublishMap_calls 0 calls).
Proof. apply PublishMap_calls_spaced. Qed.

(** ** Concrete runs *)

(** odometry (2, 0, 0), a scan, odometry (4, 0, 0), a scan *)
Definition example_events : list Event :=
  [OdometryCallback (2, 0) 0; example_scan; OdometryCallback (4, 0) 0; example_scan].

Lemma example_run (online : bool) :
  exists p,
    run tt (example_config online false) GetTransform_odom calculateEstimate_origin Process_init
      example_events = Some p.
Proof.
  destruct online; eexists; unfold example_events;
    cbn -[Rltb norm convertLidar2PointCloud AngleDist transformPoseFromMap2Target
          transformPoseFromSrc2Map];
    rewrite shouldAddPgNode_dist by (simpl; rewrite norm_on_axis, Rabs_right; lra);
    rewrite convertLidar2PointCloud_single by lra;
    cbn -[Rltb norm convertLidar2PointCloud AngleDist transformPoseFromMap2Target
          transformPoseFromSrc2Map];
    rewrite shouldAddPgNode_dist by (simpl; rewrite norm_on_axis, Rabs_right; lra);
    rewrite convertLidar2PointCloud_single by lra; reflexivity.
Qed.

(** a state right after node 0 was added at the odometry pose (1, 2, 0.5) *)
Definition example_state : SLAM unit :=
  mkSLAM (1, 2) 0.5 true false 0 (mkPose 0.5 (1, 2)) [example_node 0] [] [] [] false.

(** a configuration that uses the odometry guess and the fixed covariance *)
Definition example_config_fixed : Config :=
  mkConfig 0.52 1 0.1 0.1 0.1 1 5 false 0 0 0 true false true true.

(** ** Witnesses *)

Lemma GetPose_at_last_node_witness :
  pg_nodes_ example_state = [] ++ [example_node 0]
  /\ last_node_odom_pose_ example_state
     = mkPose (prev_odom_angle_ example_state) (prev_odom_loc_ example_state)
  /\ GetPose example_state
     = (translation (estimated_pose (example_node 0)), AngleMod (angle (estimated_pose (example_node 0)))).
Proof.
  split; [reflexivity|split; [reflexivity|]].
  exact (GetPose_at_last_node example_state [] (example_node 0) eq_refl eq_refl).
Defined.


Lemma ScanMatch_fix_mean_recovers_match_pose_witness :
  fix_mean example_config_fixed = true
  /\ ScanMatch tt example_config_fixed GetTransform_odom (example_node 0) (example_node 1)
     = Some (transformPoseFromMap2Target (estimated_pose (example_node 1))
               (estimated_pose (example_node 0)), tt)
  /\ transformPoseFromSrc2Map
       (transformPoseFromMap2Target (estimated_pose (example_node 1)) (estimated_pose (example_node 0)))
       (estimated_pose (example_node 0))
     = mkPose (AngleMod (angle (estimated_pose (example_node 1))))
         (translation (estimated_pose (example_node 1))).
Proof.
  assert (H : ScanMatch tt example_config_fixed GetTransform_odom (example_node 0) (example_node 1)
              = Some (transformPoseFromMap2Target (estimated_pose (example_node 1))
                        (estimated_pose (example_node 0)), tt)) by reflexivity.
  split; [reflexivity|split; [exact H|]].
  exact (proj1 (ScanMatch_fix_mean_recovers_match_pose tt example_config_fixed GetTransform_odom
                  (example_node 0) (example_node 1) _ tt eq_refl H)).
Defined.

Lemma updatePoseGraph_offline_appends_at_GetPose_witness :
  runOnline (example_config false false) = false /\ first_scan example_state = false
  /\ pg_nodes_ example_state = [] ++ [example_node 0]
  /\ exists s',
       updatePoseGraph tt (example_config false false) GetTransform_odom calculateEstimate_origin
         example_state = Some s'
       /\ GetPose s' = GetPose example_state.
Proof.
  split; [reflexivity|split; [reflexivity|split; [reflexivity|]]].
  destruct (updatePoseGraph_offline_appends_at_GetPose tt (example_config false false)
              GetTransform_odom calculateEstimate_origin example_state [] (example_node 0)
              eq_refl eq_refl eq_refl) as (s' & Hu & _ & _ & _ & Hp).
  exists s'. split; [exact Hu|exact Hp].
Defined.

Lemma run_nodes_numbered_witness :
  exists p,
    run tt (example_config true false) GetTransform_odom calculateEstimate_origin Process_init
      example_events = Some p
    /\ map node_number (pg_nodes_ (slam_ p)) = seq 0 (length (pg_nodes_ (slam_ p))).
Proof.
  destruct (example_run true) as [p Hp]. exists p. split; [exact Hp|].
  exact (proj1 (run_nodes_numbered tt (example_config true false) GetTransform_odom
                  calculateEstimate_origin example_events p Hp)).
Defined.

Lemma run_graph_keys_exist_witness :
  exists p,
    run tt (example_config true false) GetTransform_odom calculateEstimate_origin Process_init
      example_events = Some p
    /\ Forall (key_ok (length (pg_nodes_ (slam_ p)))) (graph_ (slam_ p)).
Proof.
  destruct (example_run true) as [p Hp]. exists p. split; [exact Hp|].
  exact (run_graph_keys_exist tt (example_config true false) GetTransform_odom
           calculateEstimate_origin example_events p Hp).
Defined.



Lemma online_initial_values_submitted_once_witness :
  exists p,
    runOnline (example_config true false) = true
    /\ forallb (fun e => negb (is_stop e)) example_events = true
    /\ run tt (example_config true false) GetTransform_odom calculateEstimate_origin Process_init
         example_events = Some p
    /\ update_keys (isam_ (slam_ p)) = map (fun k => [k]) (seq 0 (length (pg_nodes_ (slam_ p)))).
Proof.
  destruct (example_run true) as [p Hp]. exists p.
  split; [reflexivity|split; [reflexivity|split; [exact Hp|]]].
  exact (online_initial_values_submitted_once tt (example_config true false) GetTransform_odom
           calculateEstimate_origin example_events p eq_refl eq_refl Hp).
Defined.

Lemma offline_frontend_never_optimizes_witness :
  exists p,
    runOnline (example_config false false) = false
    /\ forallb (fun e => negb (is_stop e)) example_events = true
    /\ run tt (example_config false false) GetTransform_odom calculateEstimate_origin Process_init
         example_events = Some p
    /\ graph_ (slam_ p) = [] /\ isam_ (slam_ p) = [].
Proof.
  destruct (example_run false) as [p Hp]. exists p.
  split; [reflexivity|split; [reflexivity|split; [exact Hp|]]].
  destruct (offline_frontend_never_optimizes tt (example_config false false) GetTransform_odom
              calculateEstimate_origin example_events Process_init p eq_refl eq_refl Hp)
    as (Hg & Hi & _).
  split; [exact Hg|exact Hi].
Defined.

Lemma PublishMap_rate_limited_witness :
  Sorted Rle (flat_map (fun c => [fst c; snd c]) [(1, 1.1); (1.2, 1.3); (2, 2)])
  /\ Sorted (fun a b => a + 0.5 <= b) (0 :: PublishMap_calls 0 [(1, 1.1); (1.2, 1.3); (2, 2)]).
Proof.
  assert (H : Sorted Rle (flat_map (fun c => [fst c; snd c]) [(1, 1.1); (1.2, 1.3); (2, 2)]))
    by (simpl; repeat constructor; simpl; lra).
  split; [exact H|exact (PublishMap_rate_limited _ H)].
Defined.

Lemma GetMap_places_clouds_witness :
  let node := mkPgNode (mkPose 0 (1, 2)) 0 [(Fin 1, Fin 0)] in
  let s := mkSLAM (1, 2) 0 true false 0 (mkPose 0 (1, 2)) [node] [] [] [] false : SLAM unit in
  let q := vadd (translation (estimated_pose node)) (rotate (angle (estimated_pose node)) (1, 0)) in
  In node (pg_nodes_ s) /\ In (Fin 1, Fin 0) (point_cloud node)
  /\ In (Fin (fst q), Fin (snd q)) (GetMap s).
Proof.
  intros node s q.
  assert (H1 : In node (pg_nodes_ s)) by (left; reflexivity).
  assert (H2 : In (Fin 1, Fin 0) (point_cloud node)) by (left; reflexivity).
  split; [exact H1|split; [exact H2|]].
  exact (proj1 (proj2 (GetMap_places_clouds s) node 1 0 H1 H2)).
Defined.
